(** * mailboxvalidator-rust: the client library, src/lib.rs

    A shallow embedding of the three public operations of the crate
    ([validate_email], [is_disposable_email], [is_free_email]), of the
    record types they decode responses into, and of the parts of
    [serde], [serde_json] and [reqwest] those operations go through:

    - [serde_json::Value] is [value]; its numbers keep serde_json's three
      representations (a non-negative integer, a negative integer, a
      finite [f64]); [f64] is Rocq's primitive binary64 [float];
    - the response body is the JSON text after tokenisation ([None]
      when it is no JSON text at all); object members keep their order
      and their duplicates, as the deserializer sees them;
    - [#[derive(Serialize, Deserialize)]] on the record structs is the
      generic [de_struct] / [ser_struct] over the field list of the
      struct, with the semantics of serde's derived visitors;
    - [reqwest::Error] is [ReqError]; a blocking call is a computation
      in [io], which reads the network's answer to a GET of a URL and
      logs the GET requests and the lines printed on stdout. *)

From Stdlib Require Import String Ascii List ZArith Bool Floats Lia.
Set Warnings "-register-all".
Import ListNotations.
Local Open Scope string_scope.
Local Open Scope list_scope.
Local Open Scope Z_scope.

(** ** Results and errors *)

(** Rust's [Result<T, E>]. *)
Inductive result (A E : Type) : Type :=
| Ok (a : A)
| Err (e : E).
Arguments Ok {A E} a.
Arguments Err {A E} e.

(** The part of [reqwest::Error] the crate can produce: a failure of
    [send] (DNS, connect, TLS, timeout, ...) or of [Response::json]
    (body not JSON, or not of the expected type). *)
Inductive ReqError : Type :=
| ErrRequest (what : string)
| ErrDecode (what : string).

(** [MailboxValidatorResult<T> = Result<T, ReqError>]. *)
Definition MailboxValidatorResult (T : Type) : Type := result T ReqError.

(** Rust's [?] on a [Result]. *)
Definition rbind {A B E} (r : result A E) (k : A -> result B E) : result B E :=
  match r with
  | Ok a => k a
  | Err e => Err e
  end.

Notation "'let?' x ':=' r 'in' k" := (rbind r (fun x => k))
  (at level 200, x name, r at level 100, k at level 200).

Definition map_err {A E F} (f : E -> F) (r : result A E) : result A F :=
  match r with
  | Ok a => Ok a
  | Err e => Err (f e)
  end.

(** ** [serde_json::Value] *)

(** [serde_json::Number]: [PosInt] holds a [u64], [NegInt] a negative
    [i64], [Float] a finite [f64]. *)
Inductive number : Type :=
| PosInt (n : Z)
| NegInt (n : Z)
| Float (f : float).

Inductive value : Type :=
| VNull
| VBool (b : bool)
| VNumber (n : number)
| VString (s : string)
| VArray (l : list value)
| VObject (m : list (string * value)).

(** [Value::get] on an object: the member under key [k]. *)
Fixpoint assoc (k : string) (m : list (string * value)) : option value :=
  match m with
  | [] => None
  | (k', v) :: m' => if String.eqb k k' then Some v else assoc k m'
  end.

Definition get (k : string) (v : value) : option value :=
  match v with
  | VObject m => assoc k m
  | _ => None
  end.

(** ** Primitive field types and their serde implementations *)

Definition i64_max : Z := 9223372036854775807.

(** [u as f64] / [i as f64]: round to nearest, ties to even. *)
Definition f64_of_Z (z : Z) : float :=
  SF2Prim (binary_normalize prec emax z 0 false).

(** The field types occurring in the record structs. *)
Inductive prim : Type :=
| TString      (* String *)
| TOptBool     (* Option<bool> *)
| TF64         (* f64 *)
| TI64.        (* i64 *)

(** A field value of one of these types. *)
Inductive pval : Type :=
| PString (s : string)
| POptBool (b : option bool)
| PF64 (f : float)
| PI64 (z : Z).

(** [<T as Deserialize>::deserialize] for each field type. *)
Definition de_prim (t : prim) (v : value) : result pval string :=
  match t, v with
  | TString, VString s => Ok (PString s)
  | TOptBool, VNull => Ok (POptBool None)
  | TOptBool, VBool b => Ok (POptBool (Some b))
  | TI64, VNumber (PosInt n) =>
      if n <=? i64_max then Ok (PI64 n) else Err "invalid value: expected i64"
  | TI64, VNumber (NegInt n) => Ok (PI64 n)
  | TF64, VNumber (PosInt n) => Ok (PF64 (f64_of_Z n))
  | TF64, VNumber (NegInt n) => Ok (PF64 (f64_of_Z n))
  | TF64, VNumber (Float f) => Ok (PF64 f)
  | _, _ => Err "invalid type"
  end.

(** What serde's derived visitor uses for a missing field: [None] for an
    [Option] field, an error ([missing field]) otherwise. *)
Definition prim_missing (t : prim) : option pval :=
  match t with
  | TOptBool => Some (POptBool None)
  | _ => None
  end.

(** [<T as Serialize>::serialize] into [serde_json::value::Serializer]:
    [None] is [null], a non-finite [f64] is [null], an [i64] is a
    [PosInt] when non-negative and a [NegInt] otherwise. *)
Definition ser_prim (v : pval) : value :=
  match v with
  | PString s => VString s
  | POptBool None => VNull
  | POptBool (Some b) => VBool b
  | PF64 f => if is_finite f then VNumber (Float f) else VNull
  | PI64 z => if z <? 0 then VNumber (NegInt z) else VNumber (PosInt z)
  end.

(** ** [#[derive(Serialize, Deserialize)]] on a struct *)

Section Derive.
(** [T]: the field types, [V]: the field values. *)
Variables T V : Type.
Variable de : T -> value -> result V string.
Variable missing : T -> option V.
Variable ser : V -> value.

(** The generated [__Field] identifier: the position and type of the
    field named [k], or [None] for a key that is ignored. *)
Fixpoint field_index (k : string) (sch : list (string * T)) (i : nat)
  : option (nat * T) :=
  match sch with
  | [] => None
  | (n, t) :: sch' =>
      if String.eqb k n then Some (i, t) else field_index k sch' (S i)
  end.

Fixpoint set_nth {A} (i : nat) (x : A) (l : list A) : list A :=
  match i, l with
  | O, _ :: l' => x :: l'
  | S i', y :: l' => y :: set_nth i' x l'
  | _, [] => []
  end.

(** [visit_map]: one [Option<T>] slot per field, the map entries
    handled in order; a field seen twice is [duplicate field], an
    unknown key is skipped ([IgnoredAny]). *)
Fixpoint visit_entries (sch : list (string * T))
    (es : list (string * value)) (slots : list (option V))
    : result (list (option V)) string :=
  match es with
  | [] => Ok slots
  | (k, v) :: es' =>
      match field_index k sch 0 with
      | None => visit_entries sch es' slots
      | Some (i, t) =>
          match nth i slots None with
          | Some _ => Err "duplicate field"
          | None =>
              let? x := de t v in
              visit_entries sch es' (set_nth i (Some x) slots)
          end
      end
  end.

(** End of [visit_map]: each empty slot is filled by [missing]. *)
Fixpoint finish (sch : list (string * T)) (slots : list (option V))
    : result (list V) string :=
  match sch, slots with
  | [], _ => Ok []
  | (_, t) :: sch', s :: slots' =>
      let? x := match s with
                | Some x => Ok x
                | None => match missing t with
                          | Some x => Ok x
                          | None => Err "missing field"
                          end
                end in
      let? xs := finish sch' slots' in
      Ok (x :: xs)
  | _ :: _, [] => Err "missing field"
  end.

(** [visit_seq] followed by serde_json's [end_seq]: the fields in
    order, all of them required, no element left over. *)
Fixpoint visit_seq (sch : list (string * T)) (es : list value)
    : result (list V) string :=
  match sch, es with
  | [], [] => Ok []
  | [], _ :: _ => Err "trailing characters"
  | _ :: _, [] => Err "invalid length"
  | (_, t) :: sch', e :: es' =>
      let? x := de t e in
      let? xs := visit_seq sch' es' in
      Ok (x :: xs)
  end.

(** [deserialize_struct]: a map or a sequence; anything else is
    [invalid type]. *)
Definition de_struct (sch : list (string * T)) (v : value)
    : result (list V) string :=
  match v with
  | VObject es =>
      let? slots := visit_entries sch es (map (fun _ => None) sch) in
      finish sch slots
  | VArray es => visit_seq sch es
  | _ => Err "invalid type: expected struct"
  end.

(** [serialize_struct] into a [serde_json::Map]: one entry per field,
    in declaration order. *)
Definition ser_struct (sch : list (string * T)) (vs : list V) : value :=
  VObject (combine (map fst sch) (map ser vs)).
End Derive.

Arguments field_index {T} k sch i.
Arguments set_nth {A} i x l.
Arguments visit_entries {T V} de sch es slots.
Arguments finish {T V} missing sch slots.
Arguments visit_seq {T V} de sch es.
Arguments de_struct {T V} de missing sch v.
Arguments ser_struct {T V} ser sch vs.

(** ** The record structs of lib.rs *)

(** A decoded field list is turned back into the struct; the [None]
    case cannot happen after [de_struct] on the struct's own schema
    (serde's generated code has the field types statically). *)
Definition of_fields_or_err {R} (o : option R) : result R string :=
  match o with
  | Some r => Ok r
  | None => Err "invalid type"
  end.

Module SingleEmailValidationRecord.
Record t : Type := mk {
  email_address : string;
  base_email_address : string;
  domain : string;
  is_free : option bool;
  is_syntax : option bool;
  is_domain : option bool;
  is_smtp : option bool;
  is_verified : option bool;
  is_server_down : option bool;
  is_greylisted : option bool;
  is_disposable : option bool;
  is_suppressed : option bool;
  is_role : option bool;
  is_high_risk : option bool;
  is_catchall : option bool;
  is_dmarc_enforced : option bool;
  is_strict_spf : option bool;
  website_exist : option bool;
  status : option bool;
  mailboxvalidator_score : float;
  time_taken : float;
  credits_available : Z
}.

Definition schema : list (string * prim) :=
  [("email_address", TString); ("base_email_address", TString);
   ("domain", TString); ("is_free", TOptBool); ("is_syntax", TOptBool);
   ("is_domain", TOptBool); ("is_smtp", TOptBool);
   ("is_verified", TOptBool); ("is_server_down", TOptBool);
   ("is_greylisted", TOptBool); ("is_disposable", TOptBool);
   ("is_suppressed", TOptBool); ("is_role", TOptBool);
   ("is_high_risk", TOptBool); ("is_catchall", TOptBool);
   ("is_dmarc_enforced", TOptBool); ("is_strict_spf", TOptBool);
   ("website_exist", TOptBool); ("status", TOptBool);
   ("mailboxvalidator_score", TF64); ("time_taken", TF64);
   ("credits_available", TI64)].

Definition to_fields (r : t) : list pval :=
  [PString (email_address r); PString (base_email_address r);
   PString (domain r); POptBool (is_free r); POptBool (is_syntax r);
   POptBool (is_domain r); POptBool (is_smtp r); POptBool (is_verified r);
   POptBool (is_server_down r); POptBool (is_greylisted r);
   POptBool (is_disposable r); POptBool (is_suppressed r);
   POptBool (is_role r); POptBool (is_high_risk r);
   POptBool (is_catchall r); POptBool (is_dmarc_enforced r);
   POptBool (is_strict_spf r); POptBool (website_exist r);
   POptBool (status r); PF64 (mailboxvalidator_score r);
   PF64 (time_taken r); PI64 (credits_available r)].

Definition of_fields (vs : list pval) : option t :=
  match vs with
  | [PString a; PString b; PString c; POptBool d; POptBool e; POptBool f;
     POptBool g; POptBool h; POptBool i; POptBool j; POptBool k;
     POptBool l; POptBool m; POptBool n; POptBool o; POptBool p;
     POptBool q; POptBool r; POptBool s; PF64 u; PF64 v; PI64 w] =>
      Some (mk a b c d e f g h i j k l m n o p q r s u v w)
  | _ => None
  end.

Definition decode (v : value) : result t string :=
  let? vs := de_struct de_prim prim_missing schema v in
  of_fields_or_err (of_fields vs).

Definition encode (r : t) : value := ser_struct ser_prim schema (to_fields r).
End SingleEmailValidationRecord.

Module DisposableEmailRecord.
Record t : Type := mk {
  email_address : string;
  is_disposable : option bool;
  credits_available : Z
}.

Definition schema : list (string * prim) :=
  [("email_address", TString); ("is_disposable", TOptBool);
   ("credits_available", TI64)].

Definition to_fields (r : t) : list pval :=
  [PString (email_address r); POptBool (is_disposable r);
   PI64 (credits_available r)].

Definition of_fields (vs : list pval) : option t :=
  match vs with
  | [PString a; POptBool b; PI64 c] => Some (mk a b c)
  | _ => None
  end.

Definition decode (v : value) : result t string :=
  let? vs := de_struct de_prim prim_missing schema v in
  of_fields_or_err (of_fields vs).

Definition encode (r : t) : value := ser_struct ser_prim schema (to_fields r).
End DisposableEmailRecord.

Module FreeEmailRecord.
Record t : Type := mk {
  email_address : string;
  is_free : option bool;
  credits_available : Z
}.

Definition schema : list (string * prim) :=
  [("email_address", TString); ("is_free", TOptBool);
   ("credits_available", TI64)].

Definition to_fields (r : t) : list pval :=
  [PString (email_address r); POptBool (is_free r);
   PI64 (credits_available r)].

Definition of_fields (vs : list pval) : option t :=
  match vs with
  | [PString a; POptBool b; PI64 c] => Some (mk a b c)
  | _ => None
  end.

Definition decode (v : value) : result t string :=
  let? vs := de_struct de_prim prim_missing schema v in
  of_fields_or_err (of_fields vs).

Definition encode (r : t) : value := ser_struct ser_prim schema (to_fields r).
End FreeEmailRecord.

Module ErrorRecord1.
Record t : Type := mk {
  error_code : Z;
  error_message : string
}.

Definition schema : list (string * prim) :=
  [("error_code", TI64); ("error_message", TString)].

Definition to_fields (r : t) : list pval :=
  [PI64 (error_code r); PString (error_message r)].

Definition of_fields (vs : list pval) : option t :=
  match vs with
  | [PI64 a; PString b] => Some (mk a b)
  | _ => None
  end.

Definition decode (v : value) : result t string :=
  let? vs := de_struct de_prim prim_missing schema v in
  of_fields_or_err (of_fields vs).

Definition encode (r : t) : value := ser_struct ser_prim schema (to_fields r).
End ErrorRecord1.

(** [ErrorRecord { error: ErrorRecord1 }]: one field, of struct type
    (no default when missing). *)
Module ErrorRecord.
Record t : Type := mk {
  error : ErrorRecord1.t
}.

Definition schema : list (string * unit) := [("error", tt)].

Definition de_field (_ : unit) (v : value) : result ErrorRecord1.t string :=
  ErrorRecord1.decode v.

Definition to_fields (r : t) : list ErrorRecord1.t := [error r].

Definition of_fields (vs : list ErrorRecord1.t) : option t :=
  match vs with
  | [a] => Some (mk a)
  | _ => None
  end.

Definition decode (v : value) : result t string :=
  let? vs := de_struct de_field (fun _ => None) schema v in
  of_fields_or_err (of_fields vs).

Definition encode (r : t) : value :=
  ser_struct ErrorRecord1.encode schema (to_fields r).
End ErrorRecord.

(** ** Blocking HTTP with [reqwest] *)

(** A received response: its status code and its body. *)
Record Response : Type := mkResponse {
  status : Z;
  body : option value
}.

(** What the network answers to [client.get(url).send()]. *)
Definition network : Type := string -> result Response ReqError.

(** Observable effects: a GET request sent, a line printed by
    [println!("Something else happened. Status: {:?}", code)]. *)
Inductive event : Type :=
| EvGet (url : string)
| EvPrintStatus (code : Z).

(** A computation reading the network and logging its effects. *)
Definition io (A : Type) : Type := network -> list event * A.

Definition ret {A} (a : A) : io A := fun _ => ([], a).

Definition bind {A B} (m : io A) (k : A -> io B) : io B :=
  fun net =>
    let (l1, a) := m net in
    let (l2, b) := k a net in
    (l1 ++ l2, b).

Notation "x <- m ;; k" := (bind m (fun x => k))
  (at level 61, m at next level, right associativity).

(** [client.get(url).send()]. *)
Definition send (url : string) : io (result Response ReqError) :=
  fun net => ([EvGet url], net url).

Definition print_status (code : Z) : io unit :=
  fun _ => ([EvPrintStatus code], tt).

(** [res.json::<T>()]: the body is read as JSON text and deserialized. *)
Definition json {T} (decode : value -> result T string) (res : Response)
    : result T ReqError :=
  match body res with
  | None => Err (ErrDecode "expected value")
  | Some v => map_err ErrDecode (decode v)
  end.

Definition StatusCode_OK : Z := 200.
Definition StatusCode_BAD_REQUEST : Z := 400.
Definition StatusCode_UNAUTHORIZED : Z := 401.

(** [().into()]: [Value::Null]. *)
Definition unit_into_value : value := VNull.

(** ** The three operations *)

Definition validate_email (email_address apikey : string)
    : io (MailboxValidatorResult value) :=
  let url := ("https://api.mailboxvalidator.com/v2/validation/single?email="
              ++ email_address ++ "&key=" ++ apikey
              ++ "&format=json&source=sdk-rust-mbv")%string in
  r <- send url ;;
  match r with
  | Err e => ret (Err e)
  | Ok res =>
      if status res =? StatusCode_OK then
        ret (let? parsed := json SingleEmailValidationRecord.decode res in
             Ok (SingleEmailValidationRecord.encode parsed))
      else if (status res =? StatusCode_BAD_REQUEST)
              || (status res =? StatusCode_UNAUTHORIZED) then
        ret (let? parsed := json ErrorRecord.decode res in
             Ok (ErrorRecord.encode parsed))
      else
        _ <- print_status (status res) ;;
        ret (Ok unit_into_value)
  end.

Definition is_disposable_email (email_address apikey : string)
    : io (MailboxValidatorResult value) :=
  let url := ("https://api.mailboxvalidator.com/v2/email/disposable?email="
              ++ email_address ++ "&key=" ++ apikey
              ++ "&format=json&source=sdk-rust-mbv")%string in
  r <- send url ;;
  match r with
  | Err e => ret (Err e)
  | Ok res =>
      if status res =? StatusCode_OK then
        ret (let? parsed := json DisposableEmailRecord.decode res in
             Ok (DisposableEmailRecord.encode parsed))
      else if (status res =? StatusCode_BAD_REQUEST)
              || (status res =? StatusCode_UNAUTHORIZED) then
        ret (let? parsed := json ErrorRecord.decode res in
             Ok (ErrorRecord.encode parsed))
      else
        _ <- print_status (status res) ;;
        ret (Ok unit_into_value)
  end.

Definition is_free_email (email_address apikey : string)
    : io (MailboxValidatorResult value) :=
  let url := ("https://api.mailboxvalidator.com/v2/email/free?email="
              ++ email_address ++ "&key=" ++ apikey
              ++ "&format=json&source=sdk-rust-mbv")%string in
  r <- send url ;;
  match r with
  | Err e => ret (Err e)
  | Ok res =>
      if status res =? StatusCode_OK then
        ret (let? parsed := json FreeEmailRecord.decode res in
             Ok (FreeEmailRecord.encode parsed))
      else if (status res =? StatusCode_BAD_REQUEST)
              || (status res =? StatusCode_UNAUTHORIZED) then
        ret (let? parsed := json ErrorRecord.decode res in
             Ok (ErrorRecord.encode parsed))
      else
        _ <- print_status (status res) ;;
        ret (Ok unit_into_value)
  end.

(** The three operations, by name, for statements about all of them. *)
Inductive operation : Type :=
| OpValidate
| OpDisposable
| OpFree.

Definition call (op : operation) : string -> string -> io (MailboxValidatorResult value) :=
  match op with
  | OpValidate => validate_email
  | OpDisposable => is_disposable_email
  | OpFree => is_free_email
  end.

(** The document each operation builds from a 200 body: the decoded
    success record, serialized again. *)
Definition success_document (op : operation) (v : value) : result value string :=
  match op with
  | OpValidate =>
      let? r := SingleEmailValidationRecord.decode v in
      Ok (SingleEmailValidationRecord.encode r)
  | OpDisposable =>
      let? r := DisposableEmailRecord.decode v in
      Ok (DisposableEmailRecord.encode r)
  | OpFree =>
      let? r := FreeEmailRecord.decode v in
      Ok (FreeEmailRecord.encode r)
  end.

(** The GET requests in an effect log. *)
Fixpoint gets (l : list event) : list string :=
  match l with
  | [] => []
  | EvGet u :: l' => u :: gets l'
  | EvPrintStatus _ :: l' => gets l'
  end.

(** ** Reading the query string of a URL

    Not code of this crate: the standard reading of the query of a URL
    as [application/x-www-form-urlencoded] pairs (the query starts
    after the first [?] and ends at the first [#]; pairs are separated
    by [&], empty ones skipped; name and value are split at the first
    [=]; [+] is a space and [%XY] the byte with hex code [XY]), as the
    [url] crate's [query_pairs] and the receiving server read it. *)

Fixpoint after_char (c : ascii) (s : string) : option string :=
  match s with
  | EmptyString => None
  | String x s' => if Ascii.eqb x c then Some s' else after_char c s'
  end.

Fixpoint before_char (c : ascii) (s : string) : string :=
  match s with
  | EmptyString => EmptyString
  | String x s' => if Ascii.eqb x c then EmptyString else String x (before_char c s')
  end.

Fixpoint split_on (c : ascii) (s : string) : list string :=
  match s with
  | EmptyString => [EmptyString]
  | String x s' =>
      let rest := split_on c s' in
      if Ascii.eqb x c then EmptyString :: rest
      else match rest with
           | [] => [String x EmptyString]
           | r :: rs => String x r :: rs
           end
  end.

Definition split_pair (s : string) : string * string :=
  match after_char "=" s with
  | None => (s, EmptyString)
  | Some v => (before_char "=" s, v)
  end.

Definition hex_digit (c : ascii) : option nat :=
  let n := nat_of_ascii c in
  if (48 <=? n)%nat && (n <=? 57)%nat then Some (n - 48)%nat
  else if (65 <=? n)%nat && (n <=? 70)%nat then Some (n - 55)%nat
  else if (97 <=? n)%nat && (n <=? 102)%nat then Some (n - 87)%nat
  else None.

Fixpoint percent_decode (s : string) : string :=
  match s with
  | EmptyString => EmptyString
  | String c s' =>
      if Ascii.eqb c "+" then String " " (percent_decode s')
      else if Ascii.eqb c "%" then
        match s' with
        | String h (String l s'') =>
            match hex_digit h, hex_digit l with
            | Some a, Some b =>
                String (ascii_of_nat (16 * a + b)) (percent_decode s'')
            | _, _ => String c (percent_decode s')
            end
        | _ => String c (percent_decode s')
        end
      else String c (percent_decode s')
  end.

Definition query_pairs (url : string) : list (string * string) :=
  match after_char "?" url with
  | None => []
  | Some q =>
      map (fun p => (percent_decode (fst p), percent_decode (snd p)))
        (map split_pair
           (filter (fun s => negb (String.eqb s EmptyString))
              (split_on "&" (before_char "#" q))))
  end.

(** Characters a query value can carry unchanged: none of [&], [#],
    [+], [%]. *)
Definition plain_char (c : ascii) : bool :=
  negb (Ascii.eqb c "&" || Ascii.eqb c "#" || Ascii.eqb c "+" || Ascii.eqb c "%").

Fixpoint all_chars (p : ascii -> bool) (s : string) : bool :=
  match s with
  | EmptyString => true
  | String c s' => p c && all_chars p s'
  end.

(** The endpoint family of each operation, as the spec lists them
    (the source has them inline in the [format!] strings). *)
Definition endpoint (op : operation) : string :=
  match op with
  | OpValidate => "/v2/validation/single"
  | OpDisposable => "/v2/email/disposable"
  | OpFree => "/v2/email/free"
  end.

Definition expected_url (op : operation) (email_address api_key : string) : string :=
  ("https://api.mailboxvalidator.com" ++ endpoint op ++ "?email=" ++ email_address
   ++ "&key=" ++ api_key ++ "&format=json&source=sdk-rust-mbv")%string.

(** ** [Url::parse], run by reqwest on the string given to [get]

    Not code of this crate: [client.get(url)] turns the [String] into a
    [Url] ([IntoUrl]) before the request is sent, and the server reads
    the query of that [Url]. WHATWG URL parsing, as the [url] crate does
    it, for an absolute URL [<prefix>?<rest>] whose prefix (scheme, host,
    path) is already in serialized form and holds neither [?] nor [#],
    as the three URLs of the crate's [format!] strings are:
    - leading and trailing C0 controls and spaces are removed, then
      every tab, LF and CR anywhere;
    - the query (up to the first [#]) is kept, each byte of the
      special-query percent-encode set written [%XY] (uppercase hex);
    - the fragment (after the first [#]) likewise with the fragment
      percent-encode set. *)














(** ** Vocabulary for the statements *)

Fixpoint names_distinct (l : list string) : bool :=
  match l with
  | [] => true
  | x :: l' => negb (existsb (String.eqb x) l') && names_distinct l'
  end.

Definition success_schema (op : operation) : list (string * prim) :=
  match op with
  | OpValidate => SingleEmailValidationRecord.schema
  | OpDisposable => DisposableEmailRecord.schema
  | OpFree => FreeEmailRecord.schema
  end.

(** The document is the serialization of a success record of [op]. *)
Definition is_success_document (op : operation) (d : value) : Prop :=
  match op with
  | OpValidate => exists r, d = SingleEmailValidationRecord.encode r
  | OpDisposable => exists r, d = DisposableEmailRecord.encode r
  | OpFree => exists r, d = FreeEmailRecord.encode r
  end.

(** The document is the serialization of an [ErrorRecord]. *)
Definition is_error_document (d : value) : Prop :=
  exists er, d = ErrorRecord.encode er.

(** The range of the Rust type [i64]. *)
Definition in_i64 (z : Z) : Prop := -9223372036854775808 <= z <= i64_max.

(** Whether a key names a field of the struct: the derived [__Field]
    visitor maps every other key to [__ignore]. *)
Definition known {T} (sch : list (string * T)) (k : string) : bool :=
  match field_index k sch 0 with
  | Some _ => true
  | None => false
  end.

(** [serde_json]'s [value[k]] ([Index for str]), as the crate's doc
    examples use it on a result: the member under [k] of an object,
    [Null] when the key is absent or the value is not an object. *)
Definition index (k : string) (v : value) : value :=
  match get k v with
  | Some x => x
  | None => VNull
  end.

(** ** Concrete inputs *)

(** A network on which every GET receives the same response. *)
Definition stub (code : Z) (b : value) : network :=
  fun _ => Ok (mkResponse code (Some b)).

Definition disposable_body : value :=
  VObject [("email_address", VString "test@mailinator.com");
           ("is_disposable", VBool true);
           ("credits_available", VNumber (PosInt 100))].

Definition invalid_key_body : value :=
  VObject [("error", VObject [("error_code", VNumber (PosInt 100));
                              ("error_message", VString "Invalid API key.")])].

(** A network that answers one URL only, with [disposable_body]. *)
Definition only_expected_url : network :=
  fun u => if String.eqb u (expected_url OpDisposable "a@example.com" "K1")
           then Ok (mkResponse 200 (Some disposable_body))
           else Err (ErrRequest "error sending request").

(** A disposable-check body without [email_address]. *)
Definition body_missing_email : value :=
  VObject [("is_disposable", VBool true);
           ("credits_available", VNumber (PosInt 100))].

(** A disposable-check body without the optional [is_disposable]. *)
Definition body_without_flag : value :=
  VObject [("email_address", VString "test@mailinator.com");
           ("credits_available", VNumber (PosInt 100))].

(** A single-validation record whose score is NaN. *)
Definition record_nan : SingleEmailValidationRecord.t :=
  SingleEmailValidationRecord.mk "a@example.com" "a@example.com" "example.com"
    None None None None None None None None None None None None None None
    None None nan 0.5 10.

Definition record_finite : SingleEmailValidationRecord.t :=
  SingleEmailValidationRecord.mk "a@example.com" "a@example.com" "example.com"
    (Some false) (Some true) (Some true) (Some true) (Some true) (Some false)
    (Some false) (Some false) (Some false) (Some false) (Some false)
    (Some false) None None (Some true) (Some true) 90 0.25 1000.

(** * Lemmas *)

(** ** The derived (de)serializer *)

Section DeriveFacts.
Variables T V : Type.
Variable de : T -> value -> result V string.
Variable missing : T -> option V.
Variable ser : V -> value.

Lemma field_index_found (sch : list (string * T)) :
  forall k i j t, field_index k sch i = Some (j, t) ->
  (i <= j)%nat /\ nth_error sch (j - i) = Some (k, t).
Proof.
  induction sch as [|[n t'] sch IH]; intros k i j t H; simpl in H.
  - discriminate.
  - destruct (String.eqb_spec k n) as [->|Hne].
    + injection H as <- <-. rewrite Nat.sub_diag. split; [lia | reflexivity].
    + destruct (IH _ _ _ _ H) as [Hle Hn].
      split; [lia|].
      replace (j - i)%nat with (S (j - S i)) by lia. exact Hn.
Qed.

Lemma field_index_none (sch : list (string * T)) :
  forall k i, field_index k sch i = None -> ~ In k (map fst sch).
Proof.
  induction sch as [|[n t'] sch IH]; intros k i H; simpl in *.
  - tauto.
  - destruct (String.eqb_spec k n) as [->|Hne]; [discriminate|].
    intros [Heq|Hin]; [congruence|exact (IH _ _ H Hin)].
Qed.

Lemma field_index_app (pre : list (string * T)) :
  forall n t rest i, ~ In n (map fst pre) ->
  field_index n (pre ++ (n, t) :: rest) i = Some ((i + length pre)%nat, t).
Proof.
  induction pre as [|[m u] pre IH]; intros n t rest i Hn; simpl in *.
  - rewrite String.eqb_refl, Nat.add_0_r. reflexivity.
  - destruct (String.eqb_spec n m) as [->|Hne]; [tauto|].
    rewrite IH by tauto. f_equal. f_equal. lia.
Qed.

Lemma set_nth_length {A} (x : A) :
  forall i l, length (set_nth i x l) = length l.
Proof.
  induction i; intros [|y l]; simpl; auto.
Qed.

Lemma set_nth_same {A} (x : A) :
  forall i l, (i < length l)%nat -> nth_error (set_nth i x l) i = Some x.
Proof.
  induction i; intros [|y l] H; simpl in *; try lia; auto.
  apply IHi. lia.
Qed.

Lemma set_nth_other {A} (x : A) :
  forall i j l, i <> j -> nth_error (set_nth j x l) i = nth_error l i.
Proof.
  induction i; intros [|j] [|y l] H; simpl; auto; try congruence.
Qed.

Lemma nth_nth_error {A} (l : list A) (d : A) i x :
  nth_error l i = Some x -> nth i l d = x.
Proof.
  revert i. induction l; intros [|i] H; simpl in *; try discriminate.
  - congruence.
  - auto.
Qed.

Lemma NoDup_names_index (sch : list (string * T)) i j n t t' :
  NoDup (map fst sch) ->
  nth_error sch i = Some (n, t) -> nth_error sch j = Some (n, t') -> i = j.
Proof.
  intros Hnd Hi Hj.
  apply (proj1 (NoDup_nth_error _) Hnd).
  - rewrite length_map. apply nth_error_Some. congruence.
  - rewrite !nth_error_map, Hi, Hj. reflexivity.
Qed.

Lemma nth_error_name_in (sch : list (string * T)) i n t :
  nth_error sch i = Some (n, t) -> In n (map fst sch).
Proof.
  intros H. apply nth_error_In in H.
  apply (in_map fst) in H. exact H.
Qed.

(** The map visitor fills the slot of field [i] with the decoded
    value of the member under the field's name, and only then. *)
Lemma visit_entries_spec (sch : list (string * T)) :
  NoDup (map fst sch) ->
  forall es slots0 slots,
  visit_entries de sch es slots0 = Ok slots ->
  length slots0 = length sch ->
  forall i n t, nth_error sch i = Some (n, t) ->
  (assoc n es = None /\ nth_error slots i = nth_error slots0 i) \/
  (nth_error slots0 i = Some None /\
   exists x y, assoc n es = Some x /\ de t x = Ok y /\
               nth_error slots i = Some (Some y)).
Proof.
  intros Hnd es. induction es as [|[k v] es IH];
    intros slots0 slots Hv Hlen i n t Hi; simpl in Hv.
  - injection Hv as <-. left. split; reflexivity.
  - simpl. destruct (field_index k sch 0) as [[j t0]|] eqn:Hfi.
    + destruct (field_index_found _ _ _ _ _ Hfi) as [_ Hj].
      rewrite Nat.sub_0_r in Hj.
      assert (Hjlt : (j < length slots0)%nat)
        by (rewrite Hlen; apply nth_error_Some; congruence).
      destruct (nth j slots0 None) as [s|] eqn:Hs; [discriminate|].
      destruct (de t0 v) as [x|m] eqn:Hde; simpl in Hv; [|discriminate].
      assert (Hj0 : nth_error slots0 j = Some None).
      { destruct (nth_error slots0 j) as [o|] eqn:E.
        - apply (nth_nth_error _ None) in E. congruence.
        - apply nth_error_None in E. lia. }
      specialize (IH _ _ Hv).
      rewrite set_nth_length in IH. specialize (IH Hlen i n t Hi).
      destruct (Nat.eq_dec i j) as [->|Hij].
      * rewrite Hi in Hj. injection Hj as <- <-.
        rewrite String.eqb_refl. right. split; [exact Hj0|].
        exists v, x. split; [reflexivity|]. split; [exact Hde|].
        rewrite set_nth_same in IH by exact Hjlt.
        destruct IH as [[_ IH]|[IH _]]; [exact IH|discriminate].
      * assert (Hnk : n <> k).
        { intros ->. apply Hij. exact (NoDup_names_index _ _ _ _ _ _ Hnd Hi Hj). }
        apply String.eqb_neq in Hnk. rewrite Hnk.
        rewrite set_nth_other in IH by exact Hij. exact IH.
    + assert (Hnk : n <> k).
      { intros ->. apply (field_index_none _ _ _ Hfi).
        exact (nth_error_name_in _ _ _ _ Hi). }
      apply String.eqb_neq in Hnk. rewrite Hnk.
      exact (IH _ _ Hv Hlen i n t Hi).
Qed.

Lemma finish_spec (sch : list (string * T)) :
  forall slots vs, finish missing sch slots = Ok vs ->
  length vs = length sch /\
  forall i n t s, nth_error sch i = Some (n, t) -> nth_error slots i = Some s ->
  exists y, nth_error vs i = Some y /\
            (s = Some y \/ (s = None /\ missing t = Some y)).
Proof.
  induction sch as [|[n0 t0] sch IH]; intros slots vs H; simpl in H.
  - injection H as <-. split; [reflexivity|]. intros [|i]; discriminate.
  - destruct slots as [|s0 slots]; [discriminate|].
    destruct (match s0 with
              | Some x => Ok x
              | None => match missing t0 with
                        | Some x => Ok x
                        | None => Err "missing field"
                        end
              end) as [x|m] eqn:Hx; simpl in H; [|discriminate].
    destruct (finish missing sch slots) as [xs|m] eqn:Hf; simpl in H; [|discriminate].
    injection H as <-. destruct (IH _ _ Hf) as [Hl Hs].
    split; [simpl; congruence|].
    intros [|i] n t s Hi Hsl; simpl in Hi, Hsl.
    + injection Hi as <- <-. injection Hsl as <-.
      exists x. split; [reflexivity|].
      destruct s0 as [y|]; [left; congruence|].
      destruct (missing t0); [right; split; congruence|discriminate].
    + exact (Hs i n t s Hi Hsl).
Qed.

Lemma assoc_combine (names : list string) (ws : list value) :
  NoDup names -> length ws = length names ->
  forall i n w, nth_error names i = Some n -> nth_error ws i = Some w ->
  assoc n (combine names ws) = Some w.
Proof.
  revert ws. induction names as [|m names IH]; intros [|w0 ws] Hnd Hl i n w Hn Hw;
    destruct i as [|i]; simpl in *; try discriminate.
  - injection Hn as <-. injection Hw as <-. rewrite String.eqb_refl. reflexivity.
  - inversion Hnd as [|? ? Hm Hnd']; subst.
    assert (Hne : n <> m).
    { intros ->. apply Hm. eapply nth_error_In. exact Hn. }
    apply String.eqb_neq in Hne. rewrite Hne.
    eapply IH; eauto.
Qed.

Lemma map_fst_combine (names : list string) (ws : list value) :
  length ws = length names -> map fst (combine names ws) = names.
Proof.
  revert ws. induction names as [|m names IH]; intros [|w ws] H; simpl in *;
    try discriminate; auto.
  f_equal. apply IH. congruence.
Qed.

Lemma set_nth_app {A} (x y : A) (l r : list A) :
  set_nth (length l) x (l ++ y :: r) = l ++ x :: r.
Proof.
  induction l as [|z l IH]; simpl; congruence.
Qed.

Lemma finish_all_some (sch : list (string * T)) :
  forall vs, length vs = length sch -> finish missing sch (map Some vs) = Ok vs.
Proof.
  induction sch as [|[n t] sch IH]; intros [|v vs] H; simpl in *;
    try discriminate; auto.
  rewrite IH by congruence. reflexivity.
Qed.

(** Decoding the entries of a serialized struct, from the field
    [length pre] on: every slot is filled once, by the value that was
    serialized. *)
Lemma visit_entries_roundtrip (sch : list (string * T)) :
  NoDup (map fst sch) ->
  forall post pre pre_vs post_vs,
  sch = pre ++ post -> length pre_vs = length pre ->
  Forall2 (fun nt v => de (snd nt) (ser v) = Ok v) post post_vs ->
  visit_entries de sch (combine (map fst post) (map ser post_vs))
    (map Some pre_vs ++ map (fun _ => None) post)
  = Ok (map Some (pre_vs ++ post_vs)).
Proof.
  intros Hnd post. induction post as [|[n t] post IH];
    intros pre pre_vs post_vs Hsch Hlen Hf; inversion Hf as [|? v ? vs Hde Hf']; subst.
  - simpl. rewrite !app_nil_r. reflexivity.
  - simpl.
    assert (Hn : ~ In n (map fst pre)).
    { rewrite map_app in Hnd. simpl in Hnd.
      intros Hin. apply (NoDup_remove_2 _ _ _ Hnd). apply in_or_app. left. exact Hin. }
    rewrite field_index_app by exact Hn. simpl.
    rewrite app_nth2 by (rewrite length_map; lia).
    rewrite length_map, Hlen, Nat.sub_diag. simpl.
    simpl in Hde. rewrite Hde. simpl.
    rewrite <- Hlen, <- (length_map Some pre_vs), set_nth_app.
    replace (map Some pre_vs ++ Some v :: map (fun _ : string * T => None) post)
      with (map Some (pre_vs ++ [v]) ++ map (fun _ : string * T => None) post)
      by (rewrite map_app, <- app_assoc; reflexivity).
    rewrite (IH (pre ++ [(n, t)]) (pre_vs ++ [v]) vs).
    + rewrite <- app_assoc. reflexivity.
    + rewrite <- app_assoc. reflexivity.
    + rewrite !length_app. simpl. lia.
    + exact Hf'.
Qed.

Lemma Forall2_length' {A B} (P : A -> B -> Prop) l1 l2 :
  Forall2 P l1 l2 -> length l2 = length l1.
Proof. induction 1; simpl; auto. Qed.

Lemma de_struct_ser_struct (sch : list (string * T)) (vs : list V) :
  NoDup (map fst sch) ->
  Forall2 (fun nt v => de (snd nt) (ser v) = Ok v) sch vs ->
  de_struct de missing sch (ser_struct ser sch vs) = Ok vs.
Proof.
  intros Hnd Hf. unfold de_struct, ser_struct.
  pose proof (visit_entries_roundtrip sch Hnd sch [] [] vs eq_refl eq_refl Hf) as H.
  simpl in H. rewrite H. simpl.
  apply finish_all_some. exact (Forall2_length' _ _ _ Hf).
Qed.

(** What a successful decoding of an object yields, field by field:
    the decoded member under the field's name, or the default of a
    missing field. *)
Lemma de_struct_object (sch : list (string * T)) es vs :
  NoDup (map fst sch) ->
  de_struct de missing sch (VObject es) = Ok vs ->
  length vs = length sch /\
  forall i n t, nth_error sch i = Some (n, t) ->
  exists y, nth_error vs i = Some y /\
    ((assoc n es = None /\ missing t = Some y) \/
     (exists x, assoc n es = Some x /\ de t x = Ok y)).
Proof.
  intros Hnd H. unfold de_struct in H.
  destruct (visit_entries de sch es (map (fun _ => None) sch)) as [slots|m] eqn:Hv;
    simpl in H; [|discriminate].
  destruct (finish_spec sch slots vs H) as [Hl Hfin].
  split; [exact Hl|].
  intros i n t Hi.
  assert (Hinit : nth_error (map (fun _ : string * T => (None : option V)) sch) i = Some None)
    by (rewrite nth_error_map, Hi; reflexivity).
  destruct (visit_entries_spec sch Hnd es _ slots Hv (length_map _ _) i n t Hi)
    as [[Ha Hs]|[_ [x [y [Ha [Hd Hs]]]]]].
  - rewrite Hinit in Hs.
    destruct (Hfin i n t None Hi Hs) as [y [Hy [E|[_ Hm]]]]; [discriminate|].
    exists y. split; [exact Hy|]. left. split; assumption.
  - destruct (Hfin i n t (Some y) Hi Hs) as [y' [Hy [E|[E _]]]]; [|discriminate].
    injection E as <-. exists y. split; [exact Hy|]. right. exists x. split; assumption.
Qed.

Lemma get_ser_struct (sch : list (string * T)) vs i n t y :
  NoDup (map fst sch) -> length vs = length sch ->
  nth_error sch i = Some (n, t) -> nth_error vs i = Some y ->
  get n (ser_struct ser sch vs) = Some (ser y).
Proof.
  intros Hnd Hl Hi Hy. unfold ser_struct, get.
  apply (assoc_combine _ _ Hnd) with (i := i).
  - rewrite !length_map. exact Hl.
  - rewrite nth_error_map, Hi. reflexivity.
  - rewrite nth_error_map, Hy. reflexivity.
Qed.

Lemma keys_ser_struct (sch : list (string * T)) vs :
  length vs = length sch ->
  ser_struct ser sch vs = VObject (combine (map fst sch) (map ser vs)) /\
  map fst (combine (map fst sch) (map ser vs)) = map fst sch.
Proof.
  intros Hl. split; [reflexivity|].
  apply map_fst_combine. rewrite !length_map. exact Hl.
Qed.
End DeriveFacts.

Lemma names_distinct_NoDup (l : list string) :
  names_distinct l = true -> NoDup l.
Proof.
  induction l as [|x l IH]; simpl; intros H; [constructor|].
  apply andb_prop in H as [Hx Hl]. constructor; [|exact (IH Hl)].
  intros Hin. apply negb_true_iff in Hx.
  assert (E : existsb (String.eqb x) l = true)
    by (apply existsb_exists; exists x; split; [exact Hin|apply String.eqb_refl]).
  congruence.
Qed.

Lemma success_schema_NoDup (op : operation) :
  NoDup (map fst (success_schema op)).
Proof. apply names_distinct_NoDup. destruct op; reflexivity. Qed.

(** ** Facts about the record structs *)

Lemma de_ser_string s : de_prim TString (ser_prim (PString s)) = Ok (PString s).
Proof. reflexivity. Qed.

Lemma de_ser_optbool b : de_prim TOptBool (ser_prim (POptBool b)) = Ok (POptBool b).
Proof. destruct b; reflexivity. Qed.

Lemma de_ser_f64 f : is_finite f = true -> de_prim TF64 (ser_prim (PF64 f)) = Ok (PF64 f).
Proof. intros H. simpl. rewrite H. reflexivity. Qed.

Lemma de_ser_i64 z : in_i64 z -> de_prim TI64 (ser_prim (PI64 z)) = Ok (PI64 z).
Proof.
  intros [_ H]. simpl. destruct (z <? 0); [reflexivity|].
  simpl. apply Z.leb_le in H. rewrite H. reflexivity.
Qed.

Ltac fields_inv H :=
  repeat (match type of H with
          | _ = Some _ => idtac
          end;
          cbn in H;
          lazymatch type of H with
          | match ?vs with [] => _ | _ :: _ => _ end = Some _ =>
              destruct vs as [|[?|?|?|?] ?]; try discriminate H
          | Some _ = Some _ => fail
          end).

Lemma single_of_fields vs r :
  SingleEmailValidationRecord.of_fields vs = Some r ->
  SingleEmailValidationRecord.to_fields r = vs.
Proof.
  unfold SingleEmailValidationRecord.of_fields. intros H. fields_inv H.
  injection H as <-. reflexivity.
Qed.

Lemma disposable_of_fields vs r :
  DisposableEmailRecord.of_fields vs = Some r ->
  DisposableEmailRecord.to_fields r = vs.
Proof.
  unfold DisposableEmailRecord.of_fields. intros H. fields_inv H.
  injection H as <-. reflexivity.
Qed.

Lemma free_of_fields vs r :
  FreeEmailRecord.of_fields vs = Some r ->
  FreeEmailRecord.to_fields r = vs.
Proof.
  unfold FreeEmailRecord.of_fields. intros H. fields_inv H.
  injection H as <-. reflexivity.
Qed.

(** ** The operations, unfolded *)

Ltac unfold_ops :=
  unfold call, validate_email, is_disposable_email, is_free_email,
    bind, send, ret, print_status, expected_url, endpoint;
  cbn [String.append].

Lemma json_then_encode {R} (dec : value -> result R string) (enc : R -> value) res :
  (let? parsed := json dec res in Ok (enc parsed))
  = match body res with
    | None => Err (ErrDecode "expected value")
    | Some v => map_err ErrDecode (let? r := dec v in Ok (enc r))
    end.
Proof.
  unfold json. destruct (body res) as [v|]; [|reflexivity].
  destruct (dec v); reflexivity.
Qed.

(** Every operation: one GET of its URL, then a branch on the status. *)
Lemma call_unfold (op : operation) (e k : string) (net : network) :
  call op e k net =
  match net (expected_url op e k) with
  | Err err => ([EvGet (expected_url op e k)], Err err)
  | Ok res =>
      if status res =? 200 then
        ([EvGet (expected_url op e k)],
         match body res with
         | None => Err (ErrDecode "expected value")
         | Some v => map_err ErrDecode (success_document op v)
         end)
      else if (status res =? 400) || (status res =? 401) then
        ([EvGet (expected_url op e k)],
         match body res with
         | None => Err (ErrDecode "expected value")
         | Some v => map_err ErrDecode (let? r := ErrorRecord.decode v in
                                        Ok (ErrorRecord.encode r))
         end)
      else ([EvGet (expected_url op e k); EvPrintStatus (status res)], Ok VNull)
  end.
Proof.
  destruct op; unfold_ops; destruct (net _) as [res|err]; try reflexivity;
    unfold StatusCode_OK, StatusCode_BAD_REQUEST, StatusCode_UNAUTHORIZED, unit_into_value;
    destruct (status res =? 200); try destruct ((status res =? 400) || (status res =? 401));
    rewrite ?json_then_encode; reflexivity.
Qed.

Lemma success_document_struct (op : operation) v d :
  success_document op v = Ok d ->
  exists vs, de_struct de_prim prim_missing (success_schema op) v = Ok vs /\
             d = ser_struct ser_prim (success_schema op) vs.
Proof.
  destruct op; simpl; unfold SingleEmailValidationRecord.decode,
    DisposableEmailRecord.decode, FreeEmailRecord.decode.
  - destruct (de_struct _ _ SingleEmailValidationRecord.schema v) as [vs|m]; simpl;
      [|discriminate].
    destruct (SingleEmailValidationRecord.of_fields vs) as [r|] eqn:Ho; simpl; [|discriminate].
    intros H. injection H as <-. exists vs. split; [reflexivity|].
    unfold SingleEmailValidationRecord.encode. rewrite (single_of_fields _ _ Ho). reflexivity.
  - destruct (de_struct _ _ DisposableEmailRecord.schema v) as [vs|m]; simpl;
      [|discriminate].
    destruct (DisposableEmailRecord.of_fields vs) as [r|] eqn:Ho; simpl; [|discriminate].
    intros H. injection H as <-. exists vs. split; [reflexivity|].
    unfold DisposableEmailRecord.encode. rewrite (disposable_of_fields _ _ Ho). reflexivity.
  - destruct (de_struct _ _ FreeEmailRecord.schema v) as [vs|m]; simpl;
      [|discriminate].
    destruct (FreeEmailRecord.of_fields vs) as [r|] eqn:Ho; simpl; [|discriminate].
    intros H. injection H as <-. exists vs. split; [reflexivity|].
    unfold FreeEmailRecord.encode. rewrite (free_of_fields _ _ Ho). reflexivity.
Qed.

Lemma success_document_is_success (op : operation) v d :
  success_document op v = Ok d -> is_success_document op d.
Proof.
  destruct op; simpl.
  - destruct (SingleEmailValidationRecord.decode v) as [r|]; simpl; [|discriminate].
    intros H. injection H as <-. exists r. reflexivity.
  - destruct (DisposableEmailRecord.decode v) as [r|]; simpl; [|discriminate].
    intros H. injection H as <-. exists r. reflexivity.
  - destruct (FreeEmailRecord.decode v) as [r|]; simpl; [|discriminate].
    intros H. injection H as <-. exists r. reflexivity.
Qed.

(** A success document starts with [email_address], an error document
    has the single key [error]: no document is both. *)
Lemma success_not_error (op : operation) d :
  is_success_document op d -> ~ is_error_document d.
Proof.
  intros Hs [er ->]. destruct op; destruct Hs as [r H]; destruct er as [[c m]];
    unfold ErrorRecord.encode, SingleEmailValidationRecord.encode,
      DisposableEmailRecord.encode, FreeEmailRecord.encode, ser_struct in H;
    simpl in H; discriminate H.
Qed.

Lemma null_not_success (op : operation) : ~ is_success_document op VNull.
Proof.
  destruct op; intros [r H]; discriminate H.
Qed.

Lemma null_not_error : ~ is_error_document VNull.
Proof.
  intros [er H]. discriminate H.
Qed.

(** ** Strings and query strings *)

Lemma string_app_assoc (a b c : string) :
  ((a ++ b) ++ c)%string = (a ++ (b ++ c))%string.
Proof. induction a; simpl; congruence. Qed.



Definition not_char (c : ascii) : ascii -> bool := fun x => negb (Ascii.eqb x c).

Lemma before_char_app (c : ascii) (a b : string) :
  all_chars (not_char c) a = true -> before_char c (a ++ b) = (a ++ before_char c b)%string.
Proof.
  induction a; simpl; [reflexivity|].
  unfold not_char at 1. destruct (Ascii.eqb a c); simpl; [discriminate|].
  intros H. rewrite (IHa H). reflexivity.
Qed.


Lemma split_on_app (c : ascii) (a b : string) :
  all_chars (not_char c) a = true ->
  split_on c (a ++ String c b) = a :: split_on c b.
Proof.
  induction a; simpl.
  - intros _. rewrite Ascii.eqb_refl. reflexivity.
  - unfold not_char at 1. destruct (Ascii.eqb a c); simpl; [discriminate|].
    intros H. rewrite (IHa H). reflexivity.
Qed.

Lemma percent_decode_plain (s : string) :
  all_chars plain_char s = true -> percent_decode s = s.
Proof.
  induction s as [|c s IH]; simpl; [reflexivity|].
  intros H. apply andb_prop in H as [Hc Hs]. unfold plain_char in Hc.
  destruct (Ascii.eqb c "&"), (Ascii.eqb c "#"), (Ascii.eqb c "+") eqn:Ep,
    (Ascii.eqb c "%") eqn:Eq; simpl in Hc; try discriminate.
  rewrite IH by exact Hs. reflexivity.
Qed.



Lemma after_question_expected_url (op : operation) (e k : string) :
  after_char "?" (expected_url op e k)
  = Some ("email=" ++ e ++ "&key=" ++ k ++ "&format=json&source=sdk-rust-mbv")%string.
Proof. destruct op; reflexivity. Qed.

(** Every operation sends exactly one request, a GET of its URL. *)
Lemma call_gets (op : operation) (e k : string) (net : network) :
  gets (fst (call op e k net)) = [expected_url op e k].
Proof.
  rewrite call_unfold. destruct (net (expected_url op e k)) as [res|err]; [|reflexivity].
  destruct (status res =? 200); [reflexivity|].
  destruct ((status res =? 400) || (status res =? 401)); reflexivity.
Qed.

(** ** [Url::parse] on the crate's URLs *)





Lemma after_char_app (c : ascii) (a b : string) :
  all_chars (not_char c) a = true -> after_char c (a ++ String c b) = Some b.
Proof.
  induction a as [|x a IH]; simpl.
  - rewrite Ascii.eqb_refl. reflexivity.
  - unfold not_char at 1. destruct (Ascii.eqb x c); simpl; [discriminate|exact IH].
Qed.















(** ** More on the derived deserializer *)

Section DeriveMore.
Variables T V : Type.
Variable de : T -> value -> result V string.
Variable missing : T -> option V.

(** Entries whose key is no field of the struct are skipped. *)
Lemma visit_entries_filter (sch : list (string * T)) :
  forall es slots, visit_entries de sch es slots
  = visit_entries de sch (filter (fun kv => known sch (fst kv)) es) slots.
Proof.
  induction es as [|[k v] es IH]; intros slots; [reflexivity|].
  cbn [filter fst]. unfold known.
  destruct (field_index k sch 0) as [[i t]|] eqn:Hf; simpl; rewrite Hf; [|apply IH].
  destruct (nth i slots None); [reflexivity|].
  destruct (de t v); simpl; [apply IH|reflexivity].
Qed.

Lemma visit_entries_app (sch : list (string * T)) :
  forall es1 es2 slots, visit_entries de sch (es1 ++ es2) slots
  = rbind (visit_entries de sch es1 slots) (fun s => visit_entries de sch es2 s).
Proof.
  induction es1 as [|[k v] es1 IH]; intros es2 slots; [reflexivity|].
  simpl. destruct (field_index k sch 0) as [[i t]|]; [|apply IH].
  destruct (nth i slots None); [reflexivity|].
  destruct (de t v); simpl; [apply IH|reflexivity].
Qed.

Lemma visit_entries_length (sch : list (string * T)) :
  forall es slots slots', visit_entries de sch es slots = Ok slots' ->
  length slots' = length slots.
Proof.
  induction es as [|[k v] es IH]; intros slots slots' H; simpl in H.
  - congruence.
  - destruct (field_index k sch 0) as [[i t]|]; [|exact (IH _ _ H)].
    destruct (nth i slots None); [discriminate|].
    destruct (de t v); simpl in H; [|discriminate].
    rewrite (IH _ _ H). apply set_nth_length.
Qed.

Lemma assoc_app_cons n x (l r : list (string * value)) :
  assoc n (l ++ (n, x) :: r) <> None.
Proof.
  induction l as [|[k w] l IH]; simpl.
  - rewrite String.eqb_refl. discriminate.
  - destruct (String.eqb n k); [discriminate|exact IH].
Qed.

(** A field seen twice in an object: [duplicate field]. *)
Lemma de_struct_duplicate (sch : list (string * T)) n t x y es1 es2 es3 vs :
  NoDup (map fst sch) -> In (n, t) sch ->
  de_struct de missing sch (VObject (es1 ++ (n, x) :: es2 ++ (n, y) :: es3)) <> Ok vs.
Proof.
  intros Hnd Hin H. apply In_nth_error in Hin as [i Hi].
  unfold de_struct in H.
  replace (es1 ++ (n, x) :: es2 ++ (n, y) :: es3)
    with ((es1 ++ [(n, x)]) ++ (es2 ++ (n, y) :: es3)) in H
    by (rewrite <- app_assoc; reflexivity).
  rewrite visit_entries_app in H.
  destruct (visit_entries de sch (es1 ++ [(n, x)]) (map (fun _ => None) sch))
    as [s1|m] eqn:H1; simpl in H; [|discriminate].
  destruct (visit_entries de sch (es2 ++ (n, y) :: es3) s1)
    as [s2|m] eqn:H2; simpl in H; [|discriminate].
  assert (Hl1 : length s1 = length sch)
    by (rewrite (visit_entries_length _ _ _ _ H1); apply length_map).
  destruct (visit_entries_spec _ _ de sch Hnd _ _ _ H1 (length_map _ _) i n t Hi)
    as [[Ha _]|[_ [x1 [y1 [_ [_ Hs1]]]]]].
  - exact (assoc_app_cons n x es1 [] Ha).
  - destruct (visit_entries_spec _ _ de sch Hnd _ _ _ H2 Hl1 i n t Hi)
      as [[Ha _]|[Hs1' _]].
    + exact (assoc_app_cons n y es2 es3 Ha).
    + congruence.
Qed.

Lemma de_struct_filter (sch : list (string * T)) es :
  de_struct de missing sch (VObject es)
  = de_struct de missing sch (VObject (filter (fun kv => known sch (fst kv)) es)).
Proof. unfold de_struct. rewrite <- visit_entries_filter. reflexivity. Qed.

(** The sequence visitor: one element per field, in order. *)
Lemma visit_seq_spec (sch : list (string * T)) :
  forall es vs, visit_seq de sch es = Ok vs <->
  length es = length sch /\
  Forall2 (fun p v => de (snd (fst p)) (snd p) = Ok v) (combine sch es) vs.
Proof.
  induction sch as [|[n t] sch IH]; intros [|e es] vs; simpl.
  - split.
    + intros H. injection H as <-. split; [reflexivity|constructor].
    + intros [_ H]. inversion H. reflexivity.
  - split; [discriminate|]. intros [H _]. discriminate.
  - split; [discriminate|]. intros [H _]. discriminate.
  - destruct (de t e) as [x|m] eqn:Hd; simpl.
    + destruct (visit_seq de sch es) as [xs|m] eqn:Hs; simpl.
      * split.
        -- intros H. injection H as <-. apply IH in Hs as [Hl Hf].
           split; [congruence|]. constructor; [exact Hd|exact Hf].
        -- intros [Hl Hf]. inversion Hf as [|? y ? ys Hx Hys]; subst.
           simpl in Hx. rewrite Hd in Hx. injection Hx as <-.
           assert (Hs' : visit_seq de sch es = Ok ys)
             by (apply IH; split; [congruence|exact Hys]).
           congruence.
      * split; [discriminate|]. intros [Hl Hf].
        inversion Hf as [|? y ? ys Hx Hys]; subst.
        assert (Hs' : visit_seq de sch es = Ok ys)
          by (apply IH; split; [congruence|exact Hys]).
        congruence.
    + split; [discriminate|]. intros [Hl Hf].
      inversion Hf as [|? y ? ys Hx Hys]; subst.
      simpl in Hx. congruence.
Qed.

Lemma visit_seq_typed (sch : list (string * T)) :
  forall es vs, visit_seq de sch es = Ok vs ->
  length vs = length sch /\
  forall i n t y, nth_error sch i = Some (n, t) -> nth_error vs i = Some y ->
  exists x, de t x = Ok y.
Proof.
  induction sch as [|[n0 t0] sch IH]; intros [|e es] vs H; simpl in H; try discriminate.
  - injection H as <-. split; [reflexivity|]. intros [|i]; discriminate.
  - destruct (de t0 e) as [x|m] eqn:Hd; simpl in H; [|discriminate].
    destruct (visit_seq de sch es) as [xs|m] eqn:Hs; simpl in H; [|discriminate].
    injection H as <-. destruct (IH _ _ Hs) as [Hl Hf].
    split; [simpl; congruence|].
    intros [|i] n t y Hi Hy; simpl in Hi, Hy.
    + injection Hi as <- <-. injection Hy as <-. exists e. exact Hd.
    + exact (Hf i n t y Hi Hy).
Qed.

(** Every value a successful decoding yields, object or array: the
    decoding of some JSON value by the field's type, or the default
    of a missing field. *)
Lemma de_struct_typed (sch : list (string * T)) v vs :
  NoDup (map fst sch) -> de_struct de missing sch v = Ok vs ->
  length vs = length sch /\
  forall i n t y, nth_error sch i = Some (n, t) -> nth_error vs i = Some y ->
  missing t = Some y \/ exists x, de t x = Ok y.
Proof.
  intros Hnd H. destruct v as [| | | |es|es]; try discriminate H.
  - simpl in H. destruct (visit_seq_typed _ _ _ H) as [Hl Hf].
    split; [exact Hl|]. intros i n t y Hi Hy. right. exact (Hf i n t y Hi Hy).
  - destruct (de_struct_object _ _ de missing sch es vs Hnd H) as [Hl Hf].
    split; [exact Hl|]. intros i n t y Hi Hy.
    destruct (Hf i n t Hi) as [y' [Hy' [[_ Hm]|[x [_ Hx]]]]];
      rewrite Hy in Hy'; injection Hy' as <-; [left; exact Hm|right; exists x; exact Hx].
Qed.

(** A member under a field's name must decode by the field's type. *)
Lemma de_struct_present (sch : list (string * T)) es vs n t x :
  NoDup (map fst sch) -> de_struct de missing sch (VObject es) = Ok vs ->
  In (n, t) sch -> assoc n es = Some x -> exists y, de t x = Ok y.
Proof.
  intros Hnd H Hin Hx. apply In_nth_error in Hin as [i Hi].
  destruct (de_struct_object _ _ de missing sch es vs Hnd H) as [_ Hf].
  destruct (Hf i n t Hi) as [y [_ [[Ha _]|[x' [Ha Hd]]]]]; [congruence|].
  exists y. congruence.
Qed.

(** A field without default must be present. *)
Lemma de_struct_required (sch : list (string * T)) es vs n t :
  NoDup (map fst sch) -> de_struct de missing sch (VObject es) = Ok vs ->
  In (n, t) sch -> missing t = None -> assoc n es <> None.
Proof.
  intros Hnd H Hin Hm Ha. apply In_nth_error in Hin as [i Hi].
  destruct (de_struct_object _ _ de missing sch es vs Hnd H) as [_ Hf].
  destruct (Hf i n t Hi) as [y [_ [[_ Hm']|[x [Ha' _]]]]]; congruence.
Qed.
End DeriveMore.

Lemma assoc_not_in n (m : list (string * value)) :
  ~ In n (map fst m) -> assoc n m = None.
Proof.
  induction m as [|[k w] m IH]; simpl; [reflexivity|].
  intros Hn. destruct (String.eqb_spec n k) as [->|_]; [tauto|].
  apply IH. tauto.
Qed.

Lemma error_schema_NoDup : NoDup (map fst ErrorRecord.schema).
Proof. apply names_distinct_NoDup. reflexivity. Qed.

Lemma error1_schema_NoDup : NoDup (map fst ErrorRecord1.schema).
Proof. apply names_distinct_NoDup. reflexivity. Qed.

(** ** Decode errors of the operations *)

Lemma success_document_not_ok (op : operation) v :
  (forall vs, de_struct de_prim prim_missing (success_schema op) v <> Ok vs) ->
  exists m, success_document op v = Err m.
Proof.
  intros H. destruct (success_document op v) as [d|m] eqn:E; [|exists m; reflexivity].
  destruct (success_document_struct _ _ _ E) as [vs [Hvs _]].
  exfalso. exact (H vs Hvs).
Qed.

Lemma call_200_decode_error (op : operation) e k net res v :
  net (expected_url op e k) = Ok res -> status res = 200 -> body res = Some v ->
  (forall vs, de_struct de_prim prim_missing (success_schema op) v <> Ok vs) ->
  exists m, snd (call op e k net) = Err (ErrDecode m).
Proof.
  intros Hnet H200 Hbody H. destruct (success_document_not_ok _ _ H) as [m Hm].
  rewrite call_unfold, Hnet, H200. simpl. rewrite Hbody, Hm. exists m. reflexivity.
Qed.

Lemma call_4xx_decode_error (op : operation) e k net res v :
  net (expected_url op e k) = Ok res -> status res = 400 \/ status res = 401 ->
  body res = Some v -> (forall r, ErrorRecord.decode v <> Ok r) ->
  exists m, snd (call op e k net) = Err (ErrDecode m).
Proof.
  intros Hnet Hst Hbody H.
  destruct (ErrorRecord.decode v) as [r|m] eqn:E; [exfalso; exact (H r eq_refl)|].
  rewrite call_unfold, Hnet.
  destruct Hst as [Hs|Hs]; rewrite Hs; simpl; rewrite Hbody, E; exists m; reflexivity.
Qed.

(** What a call that does not fail returns: a success document, an
    error document, or [Null]. *)
Lemma call_ok_cases (op : operation) e k net d :
  snd (call op e k net) = Ok d ->
  (exists v, success_document op v = Ok d) \/
  (exists er, d = ErrorRecord.encode er) \/ d = VNull.
Proof.
  rewrite call_unfold. destruct (net (expected_url op e k)) as [res|err]; simpl;
    [|discriminate].
  destruct (status res =? 200); simpl.
  - destruct (body res) as [v|]; [|discriminate].
    destruct (success_document op v) as [d'|m] eqn:Hd; simpl; [|discriminate].
    intros H. injection H as <-. left. exists v. exact Hd.
  - destruct ((status res =? 400) || (status res =? 401)); simpl.
    + destruct (body res) as [v|]; [|discriminate].
      destruct (ErrorRecord.decode v) as [er|m]; simpl; [|discriminate].
      intros H. injection H as <-. right. left. exists er. reflexivity.
    + intros H. injection H as <-. right. right. reflexivity.
Qed.

Lemma optbool_ser_shape y :
  (prim_missing TOptBool = Some y \/ exists x, de_prim TOptBool x = Ok y) ->
  ser_prim y = VNull \/ exists b, ser_prim y = VBool b.
Proof.
  intros [H|[x H]].
  - injection H as <-. left. reflexivity.
  - destruct x as [|b| | | |]; simpl in H; try discriminate;
      injection H as <-; [left|right; exists b]; reflexivity.
Qed.

(** In a success document, an [Option<bool>] field holds [null] or a
    boolean, and a key that is no field of the record is absent. *)
Lemma success_document_index (op : operation) v d :
  success_document op v = Ok d ->
  (forall n, In (n, TOptBool) (success_schema op) ->
   index n d = VNull \/ exists b, index n d = VBool b) /\
  (forall n, ~ In n (map fst (success_schema op)) -> index n d = VNull).
Proof.
  intros Hd. destruct (success_document_struct _ _ _ Hd) as [vs [Hde ->]].
  pose proof (success_schema_NoDup op) as Hnd.
  destruct (de_struct_typed _ _ de_prim prim_missing _ v vs Hnd Hde) as [Hl Hf].
  split.
  - intros n Hin. apply In_nth_error in Hin as [i Hi].
    assert (Hlt : (i < length vs)%nat) by (rewrite Hl; apply nth_error_Some; congruence).
    destruct (nth_error vs i) as [y|] eqn:Hy; [|apply nth_error_None in Hy; lia].
    unfold index. rewrite (get_ser_struct _ _ ser_prim _ vs i n TOptBool y Hnd Hl Hi Hy).
    apply optbool_ser_shape. exact (Hf i n TOptBool y Hi Hy).
  - intros n Hn. unfold index, get, ser_struct. rewrite assoc_not_in; [reflexivity|].
    rewrite map_fst_combine; [exact Hn|]. rewrite !length_map. exact Hl.
Qed.

Lemma success_document_filter (op : operation) es :
  success_document op (VObject es)
  = success_document op (VObject (filter (fun kv => known (success_schema op) (fst kv)) es)).
Proof.
  destruct op; simpl; unfold SingleEmailValidationRecord.decode,
    DisposableEmailRecord.decode, FreeEmailRecord.decode.
  - rewrite (de_struct_filter _ _ de_prim prim_missing SingleEmailValidationRecord.schema es).
    reflexivity.
  - rewrite (de_struct_filter _ _ de_prim prim_missing DisposableEmailRecord.schema es).
    reflexivity.
  - rewrite (de_struct_filter _ _ de_prim prim_missing FreeEmailRecord.schema es).
    reflexivity.
Qed.

(** * The claims *)

(** ** Responses with status 200 *)

(** C1: on a 200 response whose body decodes as the operation's success
    record, each of the three operations returns [Ok] with the document
    serialized from that record (the witness runs the disposable check
    on [{"email_address":"test@mailinator.com","is_disposable":true,
    "credits_available":100}] and reads [is_disposable == true] and
    [credits_available == 100] in the result). *)
Theorem ok_200_success_document (op : operation) (e k : string) (net : network)
    (res : Response) (v doc : value)
    (Hnet : net (expected_url op e k) = Ok res)
    (H200 : status res = 200)
    (Hbody : body res = Some v)
    (Hdec : success_document op v = Ok doc) :
  snd (call op e k net) = Ok doc.
Proof.
  rewrite call_unfold, Hnet, H200. simpl. rewrite Hbody, Hdec. reflexivity.
Qed.

Lemma ok_200_success_document_witness :
  stub 200 disposable_body (expected_url OpDisposable "test@mailinator.com" "KEY")
    = Ok (mkResponse 200 (Some disposable_body)) /\
  success_document OpDisposable disposable_body = Ok disposable_body /\
  snd (call OpDisposable "test@mailinator.com" "KEY" (stub 200 disposable_body))
    = Ok disposable_body /\
  get "is_disposable" disposable_body = Some (VBool true) /\
  get "credits_available" disposable_body = Some (VNumber (PosInt 100)).
Proof.
  assert (H : success_document OpDisposable disposable_body = Ok disposable_body)
    by reflexivity.
  split; [reflexivity|]. split; [exact H|]. split.
  - apply (ok_200_success_document OpDisposable "test@mailinator.com" "KEY"
             (stub 200 disposable_body) (mkResponse 200 (Some disposable_body))
             disposable_body disposable_body); [reflexivity|reflexivity|reflexivity|exact H].
  - split; reflexivity.
Defined.

(** ** Responses with status 400 or 401 *)

(** C2: on a 400 or 401 response whose body decodes as an [ErrorRecord],
    every operation returns [Ok] with the document
    [{error: {error_code, error_message}}]; the document does not depend
    on the operation. *)
Theorem service_error_document (op : operation) (e k : string) (net : network)
    (res : Response) (v : value) (er : ErrorRecord.t)
    (Hnet : net (expected_url op e k) = Ok res)
    (Hst : status res = 400 \/ status res = 401)
    (Hbody : body res = Some v)
    (Hdec : ErrorRecord.decode v = Ok er) :
  snd (call op e k net) =
  Ok (VObject [("error", VObject
        [("error_code", ser_prim (PI64 (ErrorRecord1.error_code (ErrorRecord.error er))));
         ("error_message", VString (ErrorRecord1.error_message (ErrorRecord.error er)))])]).
Proof.
  rewrite call_unfold, Hnet.
  destruct Hst as [H|H]; rewrite H; simpl; rewrite Hbody, Hdec;
    destruct er as [[c m]]; reflexivity.
Qed.

Lemma service_error_document_witness :
  snd (call OpFree "test@example.com" "BADKEY" (stub 401 invalid_key_body))
    = Ok invalid_key_body.
Proof.
  apply (service_error_document OpFree "test@example.com" "BADKEY"
           (stub 401 invalid_key_body) (mkResponse 401 (Some invalid_key_body))
           invalid_key_body
           (ErrorRecord.mk (ErrorRecord1.mk 100 "Invalid API key.")));
    [reflexivity|right; reflexivity|reflexivity|reflexivity].
Defined.

(** ** Any other status *)

(** C3: on a response whose status is none of 200, 400, 401, every
    operation prints the status and returns [Ok Null], whatever the
    body: the body is not read. *)
Theorem other_status_null (op : operation) (e k : string) (net : network)
    (res : Response)
    (Hnet : net (expected_url op e k) = Ok res)
    (H200 : status res <> 200) (H400 : status res <> 400) (H401 : status res <> 401) :
  call op e k net =
  ([EvGet (expected_url op e k); EvPrintStatus (status res)], Ok VNull).
Proof.
  rewrite call_unfold, Hnet.
  apply Z.eqb_neq in H200, H400, H401. rewrite H200, H400, H401. reflexivity.
Qed.

Lemma other_status_null_witness :
  call OpValidate "test@example.com" "KEY" (stub 500 disposable_body)
  = ([EvGet (expected_url OpValidate "test@example.com" "KEY"); EvPrintStatus 500],
     Ok VNull).
Proof.
  apply (other_status_null OpValidate "test@example.com" "KEY"
           (stub 500 disposable_body) (mkResponse 500 (Some disposable_body)));
    [reflexivity|discriminate|discriminate|discriminate].
Defined.

(** ** Transport failures *)

(** C4: when sending the request fails, every operation returns that
    error and no document. *)
Theorem transport_failure_err (op : operation) (e k : string) (net : network)
    (err : ReqError)
    (Hnet : net (expected_url op e k) = Err err) :
  call op e k net = ([EvGet (expected_url op e k)], Err err).
Proof.
  rewrite call_unfold, Hnet. reflexivity.
Qed.

Lemma transport_failure_err_witness :
  call OpDisposable "test@example.com" "KEY"
    (fun _ => Err (ErrRequest "error sending request: connection refused"))
  = ([EvGet (expected_url OpDisposable "test@example.com" "KEY")],
     Err (ErrRequest "error sending request: connection refused")).
Proof.
  apply transport_failure_err. reflexivity.
Defined.

(** ** Bodies that do not decode *)

(** C5: when the status selects the 200 branch or the 400/401 branch
    and the body does not decode as that branch's record, every
    operation returns a decode error, never a document. *)
Theorem schema_mismatch_err (op : operation) (e k : string) (net : network)
    (res : Response) (v : value)
    (Hnet : net (expected_url op e k) = Ok res)
    (Hbody : body res = Some v)
    (Hbad : (status res = 200 /\ exists m, success_document op v = Err m) \/
            ((status res = 400 \/ status res = 401) /\
             exists m, ErrorRecord.decode v = Err m)) :
  exists m, snd (call op e k net) = Err (ErrDecode m).
Proof.
  rewrite call_unfold, Hnet.
  destruct Hbad as [[H [m Hm]]|[[H|H] [m Hm]]]; rewrite H; simpl;
    rewrite Hbody, ?Hm; simpl; exists m; reflexivity.
Qed.

Lemma schema_mismatch_err_witness :
  exists m, snd (call OpDisposable "test@mailinator.com" "KEY"
                   (stub 200 body_missing_email)) = Err (ErrDecode m).
Proof.
  apply (schema_mismatch_err OpDisposable "test@mailinator.com" "KEY"
           (stub 200 body_missing_email) (mkResponse 200 (Some body_missing_email))
           body_missing_email); [reflexivity|reflexivity|].
  left. split; [reflexivity|]. exists "missing field". reflexivity.
Defined.

(** ** Determinism *)

(** C10: the result of an operation depends on the received response
    (status and body) only; with the same arguments and the same
    response, two calls are equal, effects included. *)
Theorem depends_only_on_response (op : operation) (e1 k1 e2 k2 : string)
    (net1 net2 : network) (res : Response)
    (H1 : net1 (expected_url op e1 k1) = Ok res)
    (H2 : net2 (expected_url op e2 k2) = Ok res) :
  snd (call op e1 k1 net1) = snd (call op e2 k2 net2) /\
  (e1 = e2 -> k1 = k2 -> call op e1 k1 net1 = call op e2 k2 net2).
Proof.
  split.
  - rewrite !call_unfold, H1, H2.
    destruct (status res =? 200); [reflexivity|].
    destruct ((status res =? 400) || (status res =? 401)); reflexivity.
  - intros -> ->. rewrite !call_unfold, H1.
    rewrite H2. reflexivity.
Qed.

Lemma depends_only_on_response_witness :
  snd (call OpDisposable "a@example.com" "K1" (stub 200 disposable_body))
  = snd (call OpDisposable "a@example.com" "K1" only_expected_url) /\
  ("a@example.com" = "a@example.com" -> "K1" = "K1" ->
   call OpDisposable "a@example.com" "K1" (stub 200 disposable_body)
   = call OpDisposable "a@example.com" "K1" only_expected_url).
Proof.
  apply (depends_only_on_response OpDisposable "a@example.com" "K1" "a@example.com" "K1"
           (stub 200 disposable_body) only_expected_url
           (mkResponse 200 (Some disposable_body))); reflexivity.
Defined.

(** ** One record per call *)

(** C8 (counterexample): a 500 response makes the disposable check
    return [Ok Null] without failing, and [Null] is neither a success
    record nor an error record. *)
Lemma neither_record_on_500 :
  snd (call OpDisposable "test@mailinator.com" "KEY" (stub 500 disposable_body)) = Ok VNull /\
  ~ is_success_document OpDisposable VNull /\ ~ is_error_document VNull.
Proof.
  split; [reflexivity|]. split; [apply null_not_success|apply null_not_error].
Qed.

(** C8 (amended): a call that does not fail and received status 200,
    400 or 401 produces exactly one of a success record and an error
    record; with any other status it produces [Null], neither of them. *)
Theorem exactly_one_record (op : operation) (e k : string) (net : network)
    (res : Response) (d : value)
    (Hnet : net (expected_url op e k) = Ok res)
    (Hok : snd (call op e k net) = Ok d) :
  if (status res =? 200) || (status res =? 400) || (status res =? 401)
  then (is_success_document op d /\ ~ is_error_document d) \/
       (~ is_success_document op d /\ is_error_document d)
  else d = VNull /\ ~ is_success_document op d /\ ~ is_error_document d.
Proof.
  rewrite call_unfold, Hnet in Hok.
  destruct (status res =? 200) eqn:E200; simpl in Hok |- *.
  - destruct (body res) as [v|]; [|discriminate].
    destruct (success_document op v) as [d'|m] eqn:Hd; simpl in Hok; [|discriminate].
    injection Hok as <-. left.
    pose proof (success_document_is_success _ _ _ Hd) as Hs.
    split; [exact Hs|exact (success_not_error _ _ Hs)].
  - destruct ((status res =? 400) || (status res =? 401)) eqn:E4; simpl in Hok |- *.
    + destruct (body res) as [v|]; [|discriminate].
      destruct (ErrorRecord.decode v) as [er|m]; simpl in Hok; [|discriminate].
      injection Hok as <-. right.
      assert (He : is_error_document (ErrorRecord.encode er)) by (exists er; reflexivity).
      split; [|exact He]. intros Hs. exact (success_not_error _ _ Hs He).
    + injection Hok as <-. split; [reflexivity|].
      split; [apply null_not_success|apply null_not_error].
Qed.

Lemma exactly_one_record_witness :
  (~ is_success_document OpFree invalid_key_body /\ is_error_document invalid_key_body).
Proof.
  pose proof (exactly_one_record OpFree "test@example.com" "BADKEY"
                (stub 401 invalid_key_body) (mkResponse 401 (Some invalid_key_body))
                invalid_key_body eq_refl eq_refl) as H.
  simpl in H. destruct H as [[Hs Hn]|H]; [|exact H].
  exfalso. apply Hn. exists (ErrorRecord.mk (ErrorRecord1.mk 100 "Invalid API key.")).
  reflexivity.
Defined.

(** ** Decoding and re-encoding the success records *)

(** C6 (counterexample): a single-validation record whose score is NaN
    is encoded with [null] there and does not decode back; and a 200
    disposable-check body without [is_disposable] gives a document in
    which [is_disposable] is present, as [null]. *)
Lemma roundtrip_counterexample :
  SingleEmailValidationRecord.decode (SingleEmailValidationRecord.encode record_nan)
    <> Ok record_nan /\
  snd (call OpDisposable "test@mailinator.com" "KEY" (stub 200 body_without_flag))
    = Ok (VObject [("email_address", VString "test@mailinator.com");
                   ("is_disposable", VNull);
                   ("credits_available", VNumber (PosInt 100))]) /\
  get "is_disposable" body_without_flag = None.
Proof.
  split; [|split; reflexivity].
  vm_compute. discriminate.
Qed.

(** C6 (amended): decoding the encoding of a record gives the record back,
    for every disposable-check and free-check record and for every
    single-validation record whose two [f64] fields are finite (the
    [i64] field is in range by its Rust type); and the document returned
    for a 200 object body has exactly the record's keys, each holding
    the body's member under that key as decoded by the field's type and
    re-encoded, or, for an optional field absent from the body, [null]. *)
Theorem records_roundtrip :
  (forall r : DisposableEmailRecord.t,
     in_i64 (DisposableEmailRecord.credits_available r) ->
     DisposableEmailRecord.decode (DisposableEmailRecord.encode r) = Ok r) /\
  (forall r : FreeEmailRecord.t,
     in_i64 (FreeEmailRecord.credits_available r) ->
     FreeEmailRecord.decode (FreeEmailRecord.encode r) = Ok r) /\
  (forall r : SingleEmailValidationRecord.t,
     is_finite (SingleEmailValidationRecord.mailboxvalidator_score r) = true ->
     is_finite (SingleEmailValidationRecord.time_taken r) = true ->
     in_i64 (SingleEmailValidationRecord.credits_available r) ->
     SingleEmailValidationRecord.decode (SingleEmailValidationRecord.encode r) = Ok r) /\
  (forall (op : operation) es d,
     success_document op (VObject es) = Ok d ->
     exists m, d = VObject m /\ map fst m = map fst (success_schema op) /\
     forall n t, In (n, t) (success_schema op) ->
     exists y, get n d = Some (ser_prim y) /\
       ((assoc n es = None /\ prim_missing t = Some y) \/
        (exists x, assoc n es = Some x /\ de_prim t x = Ok y))).
Proof.
  split; [|split; [|split]].
  - intros r Hc. unfold DisposableEmailRecord.decode, DisposableEmailRecord.encode.
    rewrite de_struct_ser_struct.
    + destruct r; reflexivity.
    + exact (success_schema_NoDup OpDisposable).
    + destruct r as [a b c]; simpl in Hc.
      repeat constructor; simpl;
        first [ apply de_ser_string | apply de_ser_optbool | apply de_ser_i64; exact Hc ].
  - intros r Hc. unfold FreeEmailRecord.decode, FreeEmailRecord.encode.
    rewrite de_struct_ser_struct.
    + destruct r; reflexivity.
    + exact (success_schema_NoDup OpFree).
    + destruct r as [a b c]; simpl in Hc.
      repeat constructor; simpl;
        first [ apply de_ser_string | apply de_ser_optbool | apply de_ser_i64; exact Hc ].
  - intros r Hs Ht Hc.
    unfold SingleEmailValidationRecord.decode, SingleEmailValidationRecord.encode.
    rewrite de_struct_ser_struct.
    + destruct r; reflexivity.
    + exact (success_schema_NoDup OpValidate).
    + destruct r; simpl in Hs, Ht, Hc.
      repeat constructor; simpl;
        first [ apply de_ser_string | apply de_ser_optbool
              | apply de_ser_f64; assumption | apply de_ser_i64; assumption ].
  - intros op es d Hd.
    destruct (success_document_struct _ _ _ Hd) as [vs [Hde ->]].
    pose proof (success_schema_NoDup op) as Hnd.
    destruct (de_struct_object _ _ de_prim prim_missing _ es vs Hnd Hde) as [Hl Hf].
    destruct (keys_ser_struct _ _ ser_prim _ vs Hl) as [Hv Hk].
    eexists. split; [exact Hv|]. split; [exact Hk|].
    intros n t Hin. apply In_nth_error in Hin as [i Hi].
    destruct (Hf i n t Hi) as [y [Hy Hcase]].
    exists y. split; [|exact Hcase].
    exact (get_ser_struct _ _ ser_prim _ vs i n t y Hnd Hl Hi Hy).
Qed.

Lemma records_roundtrip_witness :
  SingleEmailValidationRecord.decode (SingleEmailValidationRecord.encode record_finite)
    = Ok record_finite /\
  (exists y, get "is_disposable"
               (VObject [("email_address", VString "test@mailinator.com");
                         ("is_disposable", VNull);
                         ("credits_available", VNumber (PosInt 100))])
             = Some (ser_prim y) /\
             ((assoc "is_disposable"
                 [("email_address", VString "test@mailinator.com");
                  ("credits_available", VNumber (PosInt 100))] = None /\
               prim_missing TOptBool = Some y) \/
              (exists x, assoc "is_disposable"
                 [("email_address", VString "test@mailinator.com");
                  ("credits_available", VNumber (PosInt 100))] = Some x /\
               de_prim TOptBool x = Ok y))).
Proof.
  destruct records_roundtrip as [_ [_ [Hs Hf]]]. split.
  - apply Hs; [reflexivity|reflexivity|unfold in_i64, i64_max; simpl; lia].
  - destruct (Hf OpDisposable
                [("email_address", VString "test@mailinator.com");
                 ("credits_available", VNumber (PosInt 100))]
                (VObject [("email_address", VString "test@mailinator.com");
                          ("is_disposable", VNull);
                          ("credits_available", VNumber (PosInt 100))])
                eq_refl) as [m [Hm [_ Hn]]].
    apply Hn. simpl. right. left. reflexivity.
Defined.

(** ** The request URL *)




(** C9: the arguments are inserted in the URL as they are, without
    percent-encoding; so an address containing [&key=] adds a [key]
    parameter of its own, read before the caller's API key: with the
    address [x@y.com&key=EVIL] the query starts with [email = x@y.com]
    and [key = EVIL], whatever the API key. *)
Theorem query_injection (op : operation) (k : string) (net : network) :
  (forall e, exists pre post, expected_url op e k = (pre ++ e ++ post)%string) /\
  gets (fst (call op "x@y.com&key=EVIL" k net)) = [expected_url op "x@y.com&key=EVIL" k] /\
  exists rest, query_pairs (expected_url op "x@y.com&key=EVIL" k)
               = ("email", "x@y.com") :: ("key", "EVIL") :: rest.
Proof.
  split; [|split; [apply call_gets|]].
  - intros e. exists ("https://api.mailboxvalidator.com" ++ endpoint op ++ "?email=")%string.
    exists ("&key=" ++ k ++ "&format=json&source=sdk-rust-mbv")%string.
    unfold expected_url. rewrite !string_app_assoc. reflexivity.
  - unfold query_pairs. rewrite after_question_expected_url.
    set (tail := (k ++ "&format=json&source=sdk-rust-mbv")%string).
    assert (Hshape :
      ("email=" ++ "x@y.com&key=EVIL" ++ "&key=" ++ tail)%string
      = ("email=x@y.com&key=EVIL&key=" ++ tail)%string) by reflexivity.
    rewrite Hshape, before_char_app by reflexivity.
    set (tail' := before_char "#" tail).
    assert (Hsplit :
      ("email=x@y.com&key=EVIL&key=" ++ tail')%string
      = ("email=x@y.com" ++ String "&" ("key=EVIL" ++ String "&" ("key=" ++ tail')))%string)
      by reflexivity.
    rewrite Hsplit, split_on_app, split_on_app by reflexivity.
    eexists. cbn. reflexivity.
Qed.

(** * Further properties of the code *)

(** ** The error records *)

(** X1: decoding the encoding of an [ErrorRecord] gives it back, for
    every error code in the range of [i64]. *)
Theorem error_record_roundtrip (er : ErrorRecord.t)
    (Hc : in_i64 (ErrorRecord1.error_code (ErrorRecord.error er))) :
  ErrorRecord.decode (ErrorRecord.encode er) = Ok er.
Proof.
  destruct er as [[c m]]. simpl in Hc.
  unfold ErrorRecord.decode, ErrorRecord.encode.
  rewrite de_struct_ser_struct; [reflexivity|exact error_schema_NoDup|].
  constructor; [|constructor]. simpl.
  unfold ErrorRecord.de_field, ErrorRecord1.decode, ErrorRecord1.encode.
  rewrite de_struct_ser_struct; [reflexivity|exact error1_schema_NoDup|].
  constructor; [apply de_ser_i64; exact Hc|].
  constructor; [apply de_ser_string|constructor].
Qed.

Lemma error_record_roundtrip_witness :
  ErrorRecord.decode (ErrorRecord.encode
    (ErrorRecord.mk (ErrorRecord1.mk (-1) "Invalid API key.")))
  = Ok (ErrorRecord.mk (ErrorRecord1.mk (-1) "Invalid API key.")).
Proof.
  apply error_record_roundtrip. unfold in_i64, i64_max. simpl. lia.
Defined.

(** X2: on a 400 or 401 response whose body is an object without an
    [error] member, or whose [error] member is an object without
    [error_code] or without [error_message], every operation fails with
    a decode error: both records have no optional field. *)
Theorem error_body_fields_required (op : operation) (e k : string) (net : network)
    (res : Response) (es : list (string * value))
    (Hnet : net (expected_url op e k) = Ok res)
    (Hst : status res = 400 \/ status res = 401)
    (Hbody : body res = Some (VObject es))
    (Hbad : assoc "error" es = None \/
            exists inner, assoc "error" es = Some (VObject inner) /\
              (assoc "error_code" inner = None \/ assoc "error_message" inner = None)) :
  exists m, snd (call op e k net) = Err (ErrDecode m).
Proof.
  apply (call_4xx_decode_error op e k net res (VObject es) Hnet Hst Hbody).
  intros r Hr. unfold ErrorRecord.decode in Hr.
  destruct (de_struct ErrorRecord.de_field (fun _ => None) ErrorRecord.schema (VObject es))
    as [vs|m] eqn:Hd; simpl in Hr; [|discriminate].
  destruct Hbad as [Ha|[inner [Ha Hi]]].
  - exact (de_struct_required _ _ _ _ _ es vs "error" tt error_schema_NoDup Hd
             (or_introl eq_refl) eq_refl Ha).
  - destruct (de_struct_present _ _ _ _ _ es vs "error" tt _ error_schema_NoDup Hd
                (or_introl eq_refl) Ha) as [y Hy].
    unfold ErrorRecord.de_field, ErrorRecord1.decode in Hy.
    destruct (de_struct de_prim prim_missing ErrorRecord1.schema (VObject inner))
      as [vs'|m] eqn:Hd'; simpl in Hy; [|discriminate].
    destruct Hi as [Hc|Hm].
    + exact (de_struct_required _ _ _ _ _ inner vs' "error_code" TI64 error1_schema_NoDup
               Hd' (or_introl eq_refl) eq_refl Hc).
    + exact (de_struct_required _ _ _ _ _ inner vs' "error_message" TString
               error1_schema_NoDup Hd' (or_intror (or_introl eq_refl)) eq_refl Hm).
Qed.

(** A 401 answered with a success record: the status, not the body,
    selects the record, and the call fails. *)
Lemma error_body_fields_required_witness :
  exists m, snd (call OpDisposable "test@mailinator.com" "KEY" (stub 401 disposable_body))
            = Err (ErrDecode m).
Proof.
  apply (error_body_fields_required OpDisposable "test@mailinator.com" "KEY"
           (stub 401 disposable_body) (mkResponse 401 (Some disposable_body))
           [("email_address", VString "test@mailinator.com");
            ("is_disposable", VBool true);
            ("credits_available", VNumber (PosInt 100))]);
    [reflexivity|right; reflexivity|reflexivity|left; reflexivity].
Defined.

(** ** Bodies of 200 responses *)

(** X3: on a 200 response whose body is an object without a required
    field of the operation's record (a [String], [f64] or [i64] field),
    every operation fails with a decode error; only the [Option<bool>]
    fields may be absent. *)
Theorem required_field_missing_fails (op : operation) (e k : string) (net : network)
    (res : Response) (es : list (string * value)) (n : string) (t : prim)
    (Hnet : net (expected_url op e k) = Ok res)
    (H200 : status res = 200)
    (Hbody : body res = Some (VObject es))
    (Hin : In (n, t) (success_schema op))
    (Hreq : prim_missing t = None)
    (Hmiss : assoc n es = None) :
  exists m, snd (call op e k net) = Err (ErrDecode m).
Proof.
  apply (call_200_decode_error op e k net res (VObject es) Hnet H200 Hbody).
  intros vs Hd.
  exact (de_struct_required _ _ _ _ _ es vs n t (success_schema_NoDup op) Hd Hin Hreq Hmiss).
Qed.

(** A 200 answered with an error object: [email_address] is missing. *)
Lemma required_field_missing_fails_witness :
  exists m, snd (call OpValidate "test@example.com" "KEY" (stub 200 invalid_key_body))
            = Err (ErrDecode m).
Proof.
  apply (required_field_missing_fails OpValidate "test@example.com" "KEY"
           (stub 200 invalid_key_body) (mkResponse 200 (Some invalid_key_body))
           [("error", VObject [("error_code", VNumber (PosInt 100));
                               ("error_message", VString "Invalid API key.")])]
           "email_address" TString);
    [reflexivity|reflexivity|reflexivity|simpl; left; reflexivity|reflexivity|reflexivity].
Defined.

(** X4: on a 200 response whose body is an object in which a field of
    the operation's record has a value its Rust type does not accept
    (for instance a string for an [Option<bool>] field), every
    operation fails with a decode error. *)
Theorem field_type_mismatch_fails (op : operation) (e k : string) (net : network)
    (res : Response) (es : list (string * value)) (n : string) (t : prim)
    (x : value) (m : string)
    (Hnet : net (expected_url op e k) = Ok res)
    (H200 : status res = 200)
    (Hbody : body res = Some (VObject es))
    (Hin : In (n, t) (success_schema op))
    (Hx : assoc n es = Some x)
    (Hbad : de_prim t x = Err m) :
  exists m', snd (call op e k net) = Err (ErrDecode m').
Proof.
  apply (call_200_decode_error op e k net res (VObject es) Hnet H200 Hbody).
  intros vs Hd.
  destruct (de_struct_present _ _ _ _ _ es vs n t x (success_schema_NoDup op) Hd Hin Hx)
    as [y Hy].
  congruence.
Qed.

Lemma field_type_mismatch_fails_witness :
  exists m', snd (call OpDisposable "test@mailinator.com" "KEY"
                    (stub 200 (VObject [("email_address", VString "test@mailinator.com");
                                        ("is_disposable", VString "True");
                                        ("credits_available", VNumber (PosInt 100))])))
             = Err (ErrDecode m').
Proof.
  apply (field_type_mismatch_fails OpDisposable "test@mailinator.com" "KEY" _
           (mkResponse 200 (Some (VObject [("email_address", VString "test@mailinator.com");
                                           ("is_disposable", VString "True");
                                           ("credits_available", VNumber (PosInt 100))])))
           [("email_address", VString "test@mailinator.com");
            ("is_disposable", VString "True");
            ("credits_available", VNumber (PosInt 100))]
           "is_disposable" TOptBool (VString "True") "invalid type");
    [reflexivity|reflexivity|reflexivity|simpl; tauto|reflexivity|reflexivity].
Defined.

(** X5: on a 200 response whose body is an object with a
    [credits_available] member that is a float, or an integer above
    [i64::MAX], every operation fails with a decode error. *)
Theorem credits_out_of_i64_fails (op : operation) (e k : string) (net : network)
    (res : Response) (es : list (string * value)) (x : value)
    (Hnet : net (expected_url op e k) = Ok res)
    (H200 : status res = 200)
    (Hbody : body res = Some (VObject es))
    (Hx : assoc "credits_available" es = Some x)
    (Hbad : (exists f, x = VNumber (Float f)) \/
            (exists z, x = VNumber (PosInt z) /\ i64_max < z)) :
  exists m, snd (call op e k net) = Err (ErrDecode m).
Proof.
  apply (call_200_decode_error op e k net res (VObject es) Hnet H200 Hbody).
  intros vs Hd.
  assert (Hin : In ("credits_available", TI64) (success_schema op))
    by (destruct op; simpl; tauto).
  destruct (de_struct_present _ _ _ _ _ es vs _ _ x (success_schema_NoDup op) Hd Hin Hx)
    as [y Hy].
  destruct Hbad as [[f ->]|[z [-> Hz]]]; simpl in Hy; [discriminate|].
  apply Z.leb_gt in Hz. rewrite Hz in Hy. discriminate.
Qed.

Lemma credits_out_of_i64_fails_witness :
  exists m, snd (call OpFree "test@example.com" "KEY"
                   (stub 200 (VObject [("email_address", VString "test@example.com");
                                       ("is_free", VBool false);
                                       ("credits_available",
                                          VNumber (PosInt 9223372036854775808))])))
            = Err (ErrDecode m).
Proof.
  apply (credits_out_of_i64_fails OpFree "test@example.com" "KEY" _
           (mkResponse 200 (Some (VObject [("email_address", VString "test@example.com");
                                           ("is_free", VBool false);
                                           ("credits_available",
                                              VNumber (PosInt 9223372036854775808))])))
           [("email_address", VString "test@example.com");
            ("is_free", VBool false);
            ("credits_available", VNumber (PosInt 9223372036854775808))]
           (VNumber (PosInt 9223372036854775808)));
    [reflexivity|reflexivity|reflexivity|reflexivity|].
  right. exists 9223372036854775808. split; [reflexivity|unfold i64_max; lia].
Defined.

(** X6: on a 200 response whose body is an object in which a field of
    the operation's record occurs twice, every operation fails with a
    decode error, whatever the two values. *)
Theorem duplicate_field_fails (op : operation) (e k : string) (net : network)
    (res : Response) (es1 es2 es3 : list (string * value)) (n : string) (t : prim)
    (x y : value)
    (Hnet : net (expected_url op e k) = Ok res)
    (H200 : status res = 200)
    (Hbody : body res = Some (VObject (es1 ++ (n, x) :: es2 ++ (n, y) :: es3)))
    (Hin : In (n, t) (success_schema op)) :
  exists m, snd (call op e k net) = Err (ErrDecode m).
Proof.
  apply (call_200_decode_error op e k net res _ Hnet H200 Hbody).
  intros vs. exact (de_struct_duplicate _ _ _ _ _ n t x y es1 es2 es3 vs
                      (success_schema_NoDup op) Hin).
Qed.

Lemma duplicate_field_fails_witness :
  exists m, snd (call OpDisposable "test@mailinator.com" "KEY"
                   (stub 200 (VObject [("email_address", VString "test@mailinator.com");
                                       ("is_disposable", VBool true);
                                       ("is_disposable", VBool true);
                                       ("credits_available", VNumber (PosInt 100))])))
            = Err (ErrDecode m).
Proof.
  apply (duplicate_field_fails OpDisposable "test@mailinator.com" "KEY" _
           (mkResponse 200 (Some (VObject [("email_address", VString "test@mailinator.com");
                                           ("is_disposable", VBool true);
                                           ("is_disposable", VBool true);
                                           ("credits_available", VNumber (PosInt 100))])))
           [("email_address", VString "test@mailinator.com")] []
           [("credits_available", VNumber (PosInt 100))]
           "is_disposable" TOptBool (VBool true) (VBool true));
    [reflexivity|reflexivity|reflexivity|simpl; tauto].
Defined.

(** X7: on a 200 response whose body is an object, the members whose
    key is no field of the operation's record play no part: the call
    gives the same result, and the same effects, as on the body
    without them. *)
Theorem unknown_keys_ignored (op : operation) (e k : string) (net1 net2 : network)
    (es : list (string * value))
    (H1 : net1 (expected_url op e k) = Ok (mkResponse 200 (Some (VObject es))))
    (H2 : net2 (expected_url op e k)
          = Ok (mkResponse 200 (Some (VObject
                  (filter (fun kv => known (success_schema op) (fst kv)) es))))) :
  call op e k net1 = call op e k net2.
Proof.
  rewrite !call_unfold, H1, H2. simpl. rewrite <- success_document_filter. reflexivity.
Qed.

Lemma unknown_keys_ignored_witness :
  call OpDisposable "test@mailinator.com" "KEY"
    (stub 200 (VObject [("email_address", VString "test@mailinator.com");
                        ("is_disposable", VBool true);
                        ("domain", VString "mailinator.com");
                        ("credits_available", VNumber (PosInt 100))]))
  = call OpDisposable "test@mailinator.com" "KEY" (stub 200 disposable_body).
Proof.
  apply (unknown_keys_ignored OpDisposable "test@mailinator.com" "KEY" _ _
           [("email_address", VString "test@mailinator.com");
            ("is_disposable", VBool true);
            ("domain", VString "mailinator.com");
            ("credits_available", VNumber (PosInt 100))]); reflexivity.
Defined.

(** X8: a 200 body that is a JSON array is read positionally: it
    decodes exactly when it has one element per field of the
    operation's record and each element decodes by the field's type,
    in declaration order ([Option<bool>] fields included: none may be
    left out); an array of any other length makes every operation fail
    with a decode error. *)
Theorem array_body_positional (op : operation) :
  (forall es vs,
     de_struct de_prim prim_missing (success_schema op) (VArray es) = Ok vs <->
     length es = length (success_schema op) /\
     Forall2 (fun p v => de_prim (snd (fst p)) (snd p) = Ok v)
       (combine (success_schema op) es) vs) /\
  (forall e k net res es,
     net (expected_url op e k) = Ok res -> status res = 200 ->
     body res = Some (VArray es) -> length es <> length (success_schema op) ->
     exists m, snd (call op e k net) = Err (ErrDecode m)).
Proof.
  split.
  - intros es vs. exact (visit_seq_spec _ _ de_prim (success_schema op) es vs).
  - intros e k net res es Hnet H200 Hbody Hl.
    apply (call_200_decode_error op e k net res _ Hnet H200 Hbody).
    intros vs Hd. simpl in Hd.
    apply (visit_seq_spec _ _ de_prim (success_schema op) es vs) in Hd as [Hl' _].
    exact (Hl Hl').
Qed.

Lemma array_body_positional_witness :
  de_struct de_prim prim_missing (success_schema OpFree)
    (VArray [VString "test@example.com"; VNull; VNumber (PosInt 100)])
  = Ok [PString "test@example.com"; POptBool None; PI64 100] /\
  exists m, snd (call OpFree "test@example.com" "KEY"
                   (stub 200 (VArray [VString "test@example.com"; VNumber (PosInt 100)])))
            = Err (ErrDecode m).
Proof.
  destruct (array_body_positional OpFree) as [Hs Hc]. split.
  - apply Hs. split; [reflexivity|]. repeat constructor.
  - apply (Hc "test@example.com" "KEY" _
             (mkResponse 200 (Some (VArray [VString "test@example.com";
                                            VNumber (PosInt 100)])))
             [VString "test@example.com"; VNumber (PosInt 100)]);
      [reflexivity|reflexivity|reflexivity|discriminate].
Defined.

(** X9: on a response with status 200, 400 or 401 whose body is no JSON
    text, every operation fails with a decode error, after its one GET
    and without printing anything. *)
Theorem non_json_body_fails (op : operation) (e k : string) (net : network)
    (res : Response)
    (Hnet : net (expected_url op e k) = Ok res)
    (Hst : status res = 200 \/ status res = 400 \/ status res = 401)
    (Hbody : body res = None) :
  call op e k net = ([EvGet (expected_url op e k)], Err (ErrDecode "expected value")).
Proof.
  rewrite call_unfold, Hnet.
  destruct Hst as [H|[H|H]]; rewrite H; simpl; rewrite Hbody; reflexivity.
Qed.

Lemma non_json_body_fails_witness :
  call OpValidate "test@example.com" "KEY" (fun _ => Ok (mkResponse 401 None))
  = ([EvGet (expected_url OpValidate "test@example.com" "KEY")],
     Err (ErrDecode "expected value")).
Proof.
  apply non_json_body_fails with (res := mkResponse 401 None);
    [reflexivity|right; right; reflexivity|reflexivity].
Defined.

(** X10: on a response with status 200, 400 or 401 whose body is JSON
    but neither an object nor an array ([null], a boolean, a number, a
    string), every operation fails with the decode error
    [invalid type]. *)
Theorem scalar_body_fails (op : operation) (e k : string) (net : network)
    (res : Response) (v : value)
    (Hnet : net (expected_url op e k) = Ok res)
    (Hst : status res = 200 \/ status res = 400 \/ status res = 401)
    (Hbody : body res = Some v)
    (Harr : forall l, v <> VArray l)
    (Hobj : forall m, v <> VObject m) :
  snd (call op e k net) = Err (ErrDecode "invalid type: expected struct").
Proof.
  rewrite call_unfold, Hnet.
  destruct v as [| | | |l|m];
    [| | | |exfalso; exact (Harr l eq_refl)|exfalso; exact (Hobj m eq_refl)];
    destruct Hst as [H|[H|H]]; rewrite H; simpl; rewrite Hbody;
    destruct op; reflexivity.
Qed.

Lemma scalar_body_fails_witness :
  snd (call OpDisposable "test@mailinator.com" "KEY" (stub 200 (VString "OK")))
  = Err (ErrDecode "invalid type: expected struct").
Proof.
  apply scalar_body_fails with (res := mkResponse 200 (Some (VString "OK")))
    (v := VString "OK");
    [reflexivity|left; reflexivity|reflexivity|discriminate|discriminate].
Defined.

(** ** The documents returned *)

(** X11: in every document an operation returns without failing,
    [value["error_code"]] is [Null] (a success document has no such key,
    an error document nests it under [error]), and [value["status"]] and
    [value[n]] for every [Option<bool>] field [n] of the operation's
    record are [Null] or a boolean, never a string: the doc examples'
    [assert_eq!(ok_result["status"], "False")] and
    [assert_eq!(ok_result["error_code"], "")] fail on every such result. *)
Theorem ok_document_index (op : operation) (e k : string) (net : network) (d : value)
    (Hok : snd (call op e k net) = Ok d) :
  index "error_code" d = VNull /\
  (index "status" d = VNull \/ exists b, index "status" d = VBool b) /\
  (forall n, In (n, TOptBool) (success_schema op) ->
   index n d = VNull \/ exists b, index n d = VBool b).
Proof.
  destruct (call_ok_cases _ _ _ _ _ Hok) as [[v Hd]|[[er ->] | ->]].
  - destruct (success_document_index _ _ _ Hd) as [Hf Hn].
    split; [apply Hn; destruct op; simpl; intuition discriminate|].
    split; [|exact Hf].
    destruct op; [apply Hf; simpl; tauto|left; apply Hn; simpl; intuition discriminate
                  |left; apply Hn; simpl; intuition discriminate].
  - destruct er as [[c m]]. split; [reflexivity|]. split; [left; reflexivity|].
    intros n Hin. left. unfold index. simpl.
    destruct (String.eqb_spec n "error") as [->|_]; [|reflexivity].
    exfalso. destruct op; simpl in Hin; intuition discriminate.
  - split; [reflexivity|]. split; [left; reflexivity|]. intros; left; reflexivity.
Qed.

Lemma ok_document_index_witness :
  index "error_code" disposable_body = VNull /\
  (index "status" disposable_body = VNull \/
   exists b, index "status" disposable_body = VBool b) /\
  (forall n, In (n, TOptBool) (success_schema OpDisposable) ->
   index n disposable_body = VNull \/ exists b, index n disposable_body = VBool b).
Proof.
  apply (ok_document_index OpDisposable "test@mailinator.com" "KEY"
           (stub 200 disposable_body)).
  reflexivity.
Defined.
